(** * Factors and their algebra (2-ImplementationFactor.ipynb)

    A shallow embedding of the notebook's [factor] class and of the four
    operations [factor_product], [factor_marginalization],
    [factor_reduction] and [joint_distribution], together with the part of
    numpy they call.

    Modelling choices.
    - A variable name is a [string]; numpy orders strings by code point,
      which is [String.compare] on the strings used here.  The set
      routines ([np.unique], [np.intersect1d], [np.setdiff1d], [np.isin])
      are given by what they return, the array routines that move axes by
      what numpy computes.
    - An ndarray is a shape and a row-major (C order) data buffer.  The
      scalar type of the buffer is a parameter [R] with its addition and
      multiplication, so that every statement holds for whatever dtype the
      arrays carry.
    - Additions of scalars: the statements about the entries of a sum are
      made for an addition that is associative and commutative with [zero]
      neutral ([addition_laws]), where the order in which numpy adds the
      terms does not matter; the other statements hold for any scalars.
    - A Python exception is a value of [exn]; a computation that may raise
      returns [result].  [Exception msg] is the exception the notebook
      raises itself with [raise Exception(msg)]; the other constructors are
      the exceptions raised by Python and numpy. *)

From Stdlib Require Import List ZArith Lia Bool Arith PeanoNat.
From Stdlib Require Import String Ascii Sorting.Sorted Permutation.
From Stdlib Require Import Structures.OrderedTypeEx.
Import ListNotations.

Open Scope list_scope.

(** ** Exceptions *)

Inductive exn : Type :=
| Exception (msg : string)
| IndexError
| ValueError
| TypeError
| AxisError
| OverflowError.

Inductive result (A : Type) : Type :=
| Ok (a : A)
| Raise (e : exn).

Arguments Ok {A} a.
Arguments Raise {A} e.

Definition bind {A B : Type} (m : result A) (k : A -> result B) : result B :=
  match m with
  | Ok a => k a
  | Raise e => Raise e
  end.

Notation "x <- m ;; k" := (bind m (fun x => k))
  (at level 61, m at next level, right associativity).

(** The spec's single error kind: an exception the notebook raises itself. *)
Definition InvalidArgument {A : Type} (r : result A) : Prop :=
  exists msg, r = Raise (Exception msg).

Fixpoint mapM {A B : Type} (f : A -> result B) (l : list A) : result (list B) :=
  match l with
  | [] => Ok []
  | a :: l' => b <- f a ;; bs <- mapM f l' ;; Ok (b :: bs)
  end.

(** ** One-dimensional helpers: the set routines of numpy *)

Definition mem (v : string) (l : list string) : bool :=
  existsb (String.eqb v) l.

Definition memn (n : nat) (l : list nat) : bool :=
  existsb (Nat.eqb n) l.

(** Position of the first occurrence. *)
Fixpoint index_of (v : string) (l : list string) : nat :=
  match l with
  | [] => 0
  | x :: l' => if String.eqb x v then 0 else S (index_of v l')
  end.

Fixpoint index_ofn (n : nat) (l : list nat) : nat :=
  match l with
  | [] => 0
  | x :: l' => if Nat.eqb x n then 0 else S (index_ofn n l')
  end.

(** The order of names. *)
Definition str_lt (a b : string) : Prop := String.compare a b = Lt.

(** [np.unique]: the sorted values, each once. *)
Fixpoint insert_unique (v : string) (l : list string) : list string :=
  match l with
  | [] => [v]
  | x :: l' =>
      match String.compare v x with
      | Lt => v :: l
      | Eq => l
      | Gt => x :: insert_unique v l'
      end
  end.

Definition unique (l : list string) : list string :=
  fold_right insert_unique [] l.

(** [np.intersect1d(ar1, ar2, return_indices=True)]: the sorted common
    values, and the index of the first occurrence of each in [ar1] and in
    [ar2]. *)
Definition intersect1d (ar1 ar2 : list string)
  : list string * list nat * list nat :=
  let int1d := filter (fun v => mem v ar2) (unique ar1) in
  (int1d,
   map (fun v => index_of v ar1) int1d,
   map (fun v => index_of v ar2) int1d).

(** [np.isin(ar1, ar2, invert=...)]. *)
Definition isin (ar1 ar2 : list string) (invert : bool) : list bool :=
  map (fun v => xorb invert (mem v ar2)) ar1.

(** [np.in1d(ar1, ar2)]. *)
Definition in1d (ar1 ar2 : list string) : list bool := isin ar1 ar2 false.

(** Boolean-mask selection [ar[mask]]. *)
Fixpoint select {A : Type} (ar : list A) (mask : list bool) : list A :=
  match ar, mask with
  | a :: ar', b :: mask' =>
      if b then a :: select ar' mask' else select ar' mask'
  | _, _ => []
  end.

(** [np.setdiff1d(ar1, ar2, assume_unique=True)] is
    [ar1[in1d(ar1, ar2, assume_unique=True, invert=True)]]: the values of
    [ar1] not in [ar2], in the order of [ar1] (numpy computes the mask by
    sorting when [ar2] is long, which is a membership mask on an [ar1]
    without repetition). *)
Definition setdiff1d (ar1 ar2 : list string) : list string :=
  select ar1 (isin ar1 ar2 true).

(** [np.sum] of a boolean mask. *)
Definition count_true (mask : list bool) : nat :=
  List.length (filter (fun b => b) mask).

(** [np.where(mask)[0]]. *)
Fixpoint where_from (i : nat) (mask : list bool) : list nat :=
  match mask with
  | [] => []
  | b :: mask' =>
      if b then i :: where_from (S i) mask' else where_from (S i) mask'
  end.

Definition where_ (mask : list bool) : list nat := where_from 0 mask.

(** [np.all], [np.any], [np.arange], [range]. *)
Definition np_all (mask : list bool) : bool := forallb (fun b => b) mask.
Definition np_any (mask : list bool) : bool := existsb (fun b => b) mask.
Definition arange (n : nat) : list Z := map Z.of_nat (seq 0 n).

(** Elementwise [==] of two integer arrays of the same length. *)
Definition array_eq (a b : list nat) : list bool :=
  map (fun p => Nat.eqb (fst p) (snd p)) (combine a b).

(** [variable == ar]: elementwise comparison with one name. *)
Definition eq_scalar (v : string) (ar : list string) : list bool :=
  map (fun x => String.eqb v x) ar.

(** Integer-array indexing [ar[ind]] of a one-dimensional array. *)
Definition fancy (ar : list nat) (ind : list nat) : result (list nat) :=
  mapM (fun i => match nth_error ar i with
                 | Some c => Ok c
                 | None => Raise IndexError
                 end) ind.

(** Truth value of an array in an [if]: defined for one element (and,
    in the numpy of the notebook, false for none). *)
Definition truth (mask : list bool) : result bool :=
  match mask with
  | [] => Ok false
  | [b] => Ok b
  | _ => Raise ValueError
  end.

(** [int(ar)] of an index array: defined for one element. *)
Definition int_of (ar : list nat) : result nat :=
  match ar with
  | [i] => Ok i
  | _ => Raise TypeError
  end.

(** In-place update [ar[i] = v]. *)
Fixpoint update {A : Type} (i : nat) (v : A) (ar : list A) : list A :=
  match ar, i with
  | [], _ => []
  | _ :: ar', O => v :: ar'
  | a :: ar', S i' => a :: update i' v ar'
  end.

(** [ar[mask] = vals]: the values go, in order, to the positions where the
    mask holds (the notebook always passes as many values as positions). *)
Fixpoint set_mask {A : Type} (ar : list A) (mask : list bool) (vals : list A)
  : list A :=
  match ar, mask with
  | a :: ar', true :: mask' =>
      match vals with
      | v :: vals' => v :: set_mask ar' mask' vals'
      | [] => a :: set_mask ar' mask' []
      end
  | a :: ar', false :: mask' => a :: set_mask ar' mask' vals
  | _, _ => ar
  end.

(** [ar[ind] = vals]: one assignment per index, in order. *)
Definition set_index {A : Type} (ar : list A) (ind : list nat) (vals : list A)
  : list A :=
  fold_left (fun acc p => update (fst p) (snd p) acc) (combine ind vals) ar.

(** ** Multi-indices *)

Definition size (sh : list nat) : nat := fold_right Nat.mul 1 sh.

(** Offset of a multi-index in a row-major buffer. *)
Fixpoint ravel (sh idx : list nat) : nat :=
  match sh, idx with
  | n :: sh', i :: idx' => i * size sh' + ravel sh' idx'
  | _, _ => 0
  end.

(** All multi-indices of a shape, in row-major order. *)
Fixpoint indices (sh : list nat) : list (list nat) :=
  match sh with
  | [] => [[]]
  | n :: sh' =>
      flat_map (fun i => map (cons i) (indices sh')) (seq 0 n)
  end.

Definition in_range (sh idx : list nat) : Prop :=
  Forall2 (fun i n => i < n) idx sh.

(** [list.insert(i, x)] of Python, for [0 <= i]. *)
Definition list_insert {A : Type} (i : nat) (x : A) (l : list A) : list A :=
  firstn i l ++ x :: skipn i l.

(** [sorted] on pairs of integers: lexicographic, by insertion. *)
Definition pair_leb (p q : nat * nat) : bool :=
  (fst p <? fst q) || ((fst p =? fst q) && (snd p <=? snd q)).

Fixpoint insert_pair (p : nat * nat) (l : list (nat * nat))
  : list (nat * nat) :=
  match l with
  | [] => [p]
  | q :: l' => if pair_leb p q then p :: l else q :: insert_pair p l'
  end.

Definition pair_le (p q : nat * nat) : Prop := pair_leb p q = true.

Definition sorted (l : list (nat * nat)) : list (nat * nat) :=
  fold_right insert_pair [] l.

Fixpoint nodupb (l : list nat) : bool :=
  match l with
  | [] => true
  | x :: l' => negb (memn x l') && nodupb l'
  end.

(** [normalize_axis_index] and [normalize_axis_tuple] of numpy. *)
Definition normalize_axis_index (ndim : nat) (ax : Z) : result nat :=
  if ((- Z.of_nat ndim <=? ax) && (ax <? Z.of_nat ndim))%Z
  then Ok (Z.to_nat (if (ax <? 0)%Z then ax + Z.of_nat ndim else ax)%Z)
  else Raise AxisError.

Definition normalize_axis_tuple (ndim : nat) (axes : list Z)
  : result (list nat) :=
  axs <- mapM (normalize_axis_index ndim) axes ;;
  if nodupb axs then Ok axs else Raise ValueError.

(** An integer that numpy can take as an index: one that fits the signed
    64-bit integer it converts indices to. *)
Definition fits_index (v : Z) : bool :=
  ((- 2 ^ 63 <=? v) && (v <? 2 ^ 63))%Z.

(** An item of an indexing tuple: [slice(None)] or [None]. *)
Inductive index_item : Type :=
| SliceAll
| NewAxis.

(** Shape of [a[items]]: a [slice(None)] keeps the next axis, a [None]
    adds an axis of extent one, the axes left over follow. *)
Fixpoint getitem_shape (items : list index_item) (sh : list nat)
  : result (list nat) :=
  match items with
  | [] => Ok sh
  | NewAxis :: items' =>
      sh' <- getitem_shape items' sh ;; Ok (1 :: sh')
  | SliceAll :: items' =>
      match sh with
      | [] => Raise IndexError
      | n :: rest => sh' <- getitem_shape items' rest ;; Ok (n :: sh')
      end
  end.

(** Broadcasting of two shapes, aligned on the right. *)
Definition pad_shape (n : nat) (sh : list nat) : list nat :=
  repeat 1 (n - List.length sh) ++ sh.

Fixpoint broadcast_dims (sa sb : list nat) : result (list nat) :=
  match sa, sb with
  | [], [] => Ok []
  | n :: sa', m :: sb' =>
      if n =? m then sh <- broadcast_dims sa' sb' ;; Ok (n :: sh)
      else if n =? 1 then sh <- broadcast_dims sa' sb' ;; Ok (m :: sh)
      else if m =? 1 then sh <- broadcast_dims sa' sb' ;; Ok (n :: sh)
      else Raise ValueError
  | _, _ => Raise ValueError
  end.

Definition broadcast_shapes (sa sb : list nat) : result (list nat) :=
  let n := Nat.max (List.length sa) (List.length sb) in
  broadcast_dims (pad_shape n sa) (pad_shape n sb).

(** The index read in an operand of shape [sh] for the index [idx] of the
    broadcast result: the trailing [length sh] coordinates, with 0 on the
    axes of extent one. *)
Definition broadcast_index (sh idx : list nat) : list nat :=
  map (fun p => if fst p =? 1 then 0 else snd p)
      (combine sh (skipn (List.length idx - List.length sh) idx)).

(** Removing the entries at the positions [axes], and keeping only them. *)
Fixpoint drop_axes_from {A : Type} (i : nat) (axes : list nat) (l : list A)
  : list A :=
  match l with
  | [] => []
  | a :: l' =>
      if memn i axes then drop_axes_from (S i) axes l'
      else a :: drop_axes_from (S i) axes l'
  end.

Fixpoint keep_axes_from {A : Type} (i : nat) (axes : list nat) (l : list A)
  : list A :=
  match l with
  | [] => []
  | a :: l' =>
      if memn i axes then a :: keep_axes_from (S i) axes l'
      else keep_axes_from (S i) axes l'
  end.

(** The full index whose coordinates on [axes] are [ks] and whose other
    coordinates are [js], for an array of [ndim - i] remaining axes. *)
Fixpoint merge_from (i ndim : nat) (axes : list nat) (js ks : list nat)
  : list nat :=
  match ndim with
  | O => []
  | S ndim' =>
      if memn i axes then
        hd 0 ks :: merge_from (S i) ndim' axes js (tl ks)
      else
        hd 0 js :: merge_from (S i) ndim' axes (tl js) ks
  end.

(** The extent [sh] gives to the axis named [v], when the axes are named
    [vs]. *)
Definition card (vs : list string) (sh : list nat) (v : string) : nat :=
  nth (index_of v vs) sh 0.

(** [env] stays below the extents [sh] on the names [vs]. *)
Definition fits (vs : list string) (sh : list nat) (env : string -> nat)
  : Prop :=
  forall v, In v vs -> env v < card vs sh v.

(** The assignment [env] changed on the names [vs], which take the values
    [ks] in order. *)
Definition override (env : string -> nat) (vs : list string) (ks : list nat)
  : string -> nat :=
  fun v => if mem v vs then nth (index_of v vs) ks 0 else env v.

(** The assignment [env] changed on the one name [v]. *)
Definition updated (env : string -> nat) (v : string) (i : nat)
  : string -> nat :=
  fun w => if String.eqb w v then i else env w.

(** Names without repetition, as a test. *)
Fixpoint unique_names (vs : list string) : bool :=
  match vs with
  | [] => true
  | v :: vs' => negb (mem v vs') && unique_names vs'
  end.

Section Factors.

(** The scalar type of the arrays. *)
Variable R : Type.
Variable zero : R.
Variable add : R -> R -> R.
Variable mul : R -> R -> R.

(** ** ndarray *)

Record ndarray : Type := mk_ndarray {
  shape : list nat;
  data : list R
}.

Definition ndim (a : ndarray) : nat := List.length (shape a).

(** [a[idx]] for a full multi-index. *)
Definition get (a : ndarray) (idx : list nat) : R :=
  nth (ravel (shape a) idx) (data a) zero.

(** The array of shape [sh] whose entry at [idx] is [f idx]. *)
Definition tabulate (sh : list nat) (f : list nat -> R) : ndarray :=
  mk_ndarray sh (map f (indices sh)).

(** [np.transpose(a, axes)] for a permutation [axes] of the axes of [a],
    as [moveaxis] passes it: axis [k] of the result is axis [axes[k]] of
    [a], so the entry at [idx] is the entry of [a] whose coordinate on axis
    [j] is the coordinate of [idx] at the position of [j] in [axes]. *)
Definition transpose (a : ndarray) (axes : list nat) : ndarray :=
  tabulate (map (fun k => nth k (shape a) 0) axes)
           (fun idx =>
              get a (map (fun j => nth (index_ofn j axes) idx 0)
                         (seq 0 (ndim a)))).

(** [np.moveaxis(a, source, destination)], as numpy computes it: the axes
    that do not move keep their order, and each source axis is inserted at
    its destination, by increasing destination. *)
Definition moveaxis (a : ndarray) (source destination : list Z)
  : result ndarray :=
  src <- normalize_axis_tuple (ndim a) source ;;
  dst <- normalize_axis_tuple (ndim a) destination ;;
  if negb (List.length src =? List.length dst) then Raise ValueError
  else
    let order := filter (fun n => negb (memn n src)) (seq 0 (ndim a)) in
    let order :=
      fold_left (fun o p => list_insert (fst p) (snd p) o)
                (sorted (combine dst src)) order in
    Ok (transpose a order).

(** [a[tuple(items)]] for items [slice(None)] and [None]: a view of the
    same buffer under another shape. *)
Definition getitem (a : ndarray) (items : list index_item) : result ndarray :=
  sh <- getitem_shape items (shape a) ;;
  Ok (mk_ndarray sh (data a)).

(** [a * b] with broadcasting. *)
Definition multiply (a b : ndarray) : result ndarray :=
  sh <- broadcast_shapes (shape a) (shape b) ;;
  Ok (tabulate sh (fun idx =>
                     mul (get a (broadcast_index (shape a) idx))
                         (get b (broadcast_index (shape b) idx)))).

(** Sum of a list of scalars, from the right, starting at [zero]. *)
Definition sum_list (l : list R) : R := fold_right add zero l.

(** [s] is a sum of the terms [l]: each term once, added in some order and
    with some grouping ([zero] for no term). *)
Inductive sum_of : list R -> R -> Prop :=
| sum_of_nil : sum_of [] zero
| sum_of_one (a : R) : sum_of [a] a
| sum_of_app (l1 l2 : list R) (a b : R) :
    sum_of l1 a -> sum_of l2 b -> sum_of (l1 ++ l2) (add a b)
| sum_of_perm (l l' : list R) (a : R) :
    Permutation l l' -> sum_of l a -> sum_of l' a.

(** The laws of an addition whose sums do not depend on the order and the
    grouping of the terms: the additions of integer dtypes and of exact
    arithmetic, not floating-point addition, which is not associative. *)
Definition addition_laws : Prop :=
  (forall a b c, add a (add b c) = add (add a b) c)
  /\ (forall a b, add a b = add b a)
  /\ (forall a, add a zero = a).

(** [np.sum(a, axes)] for a tuple of axes: the entry at the index [js] of
    the axes that stay is the sum of the entries of [a] over every index
    [ks] of the summed axes.  numpy adds the terms in an order and a
    grouping of its own; here they are added with [sum_list], in row-major
    order of [ks].  The two agree for an addition that satisfies
    [addition_laws], and the properties about an entry of a sum (C3, X8,
    X15, X16) are stated under these laws, where they hold for any order
    and grouping. *)
Definition np_sum (a : ndarray) (axes : list nat) : result ndarray :=
  if negb (forallb (fun ax => ax <? ndim a) axes) then Raise AxisError
  else if negb (nodupb axes) then Raise ValueError
  else
    Ok (tabulate (drop_axes_from 0 axes (shape a))
          (fun js =>
             sum_list
               (map (fun ks => get a (merge_from 0 (ndim a) axes js ks))
                    (indices (keep_axes_from 0 axes (shape a)))))).

(** [np.take(a, value, axis)] for an integer [value]: negative values count
    from the end of the axis.  A value outside the axis is an [IndexError]
    when numpy can convert it to an index, and the [OverflowError] of that
    conversion when it cannot (the extent of an axis is below [2 ^ 63], so
    a value within the axis always converts). *)
Definition take (a : ndarray) (value : Z) (axis : nat) : result ndarray :=
  match nth_error (shape a) axis with
  | None => Raise AxisError
  | Some c =>
      if ((- Z.of_nat c <=? value) && (value <? Z.of_nat c))%Z then
        let i := Z.to_nat (if (value <? 0)%Z then value + Z.of_nat c
                           else value)%Z in
        Ok (tabulate (drop_axes_from 0 [axis] (shape a))
              (fun js => get a (merge_from 0 (ndim a) [axis] js [i])))
      else if fits_index value then Raise IndexError
      else Raise OverflowError
  end.

(** ** The factor class *)

Record factor : Type := mk_factor {
  f_variables : list string;
  f_distribution : option ndarray;
  f_shape : option (list nat)
}.

(** [factor.__init__(variables, distribution)]; [None] arguments are the
    defaults. *)
Definition factor_init (variables : option (list string))
           (distribution : option ndarray) : result factor :=
  match distribution, variables with
  | None, Some vs => Ok (mk_factor vs None None)
  | _, None => Raise (Exception "Data is incorrect")
  | Some d, Some vs =>
      if negb (List.length vs =? List.length (shape d))
      then Raise (Exception "Data is incorrect")
      else Ok (mk_factor vs (Some d) (Some (shape d)))
  end.

Definition is_none (x : factor) : bool :=
  match f_distribution x with
  | None => true
  | Some _ => false
  end.

Definition get_variables (x : factor) : list string := f_variables x.
Definition get_distribution (x : factor) : option ndarray := f_distribution x.
Definition get_shape (x : factor) : option (list nat) := f_shape x.

(** Using an attribute that is [None] where an array is needed. *)
Definition the {A : Type} (o : option A) : result A :=
  match o with
  | Some a => Ok a
  | None => Raise TypeError
  end.

(** ** The operations *)

Definition factor_product (x y : factor) : result factor :=
  if is_none x || is_none y
  then Raise (Exception "One of the factors is None")
  else
    let '(xy, xy_in_x_ind, xy_in_y_ind) :=
      intersect1d (get_variables x) (get_variables y) in
    if List.length xy =? 0
    then Raise (Exception "Factors do not have common variables")
    else
      x_shape <- the (get_shape x) ;;
      y_shape <- the (get_shape y) ;;
      x_card <- fancy x_shape xy_in_x_ind ;;
      y_card <- fancy y_shape xy_in_y_ind ;;
      if negb (np_all (array_eq x_card y_card))
      then Raise (Exception "Common variables have different order")
      else
        let x_not_in_y := setdiff1d (get_variables x) (get_variables y) in
        let y_not_in_x := setdiff1d (get_variables y) (get_variables x) in
        let x_mask := isin (get_variables x) xy true in
        let y_mask := isin (get_variables y) xy true in
        let x_ind := repeat (-1)%Z (List.length (get_variables x)) in
        let y_ind := repeat (-1)%Z (List.length (get_variables y)) in
        let x_ind := set_mask x_ind x_mask (arange (count_true x_mask)) in
        let y_ind :=
          set_mask y_ind y_mask
            (map (fun k => k + Z.of_nat (count_true (map negb y_mask)))%Z
                 (arange (count_true y_mask))) in
        let x_ind :=
          set_index x_ind xy_in_x_ind
            (map (fun k => k + Z.of_nat (count_true x_mask))%Z
                 (arange (List.length xy))) in
        let y_ind := set_index y_ind xy_in_y_ind (arange (List.length xy)) in
        x_dist <- the (get_distribution x) ;;
        y_dist <- the (get_distribution y) ;;
        x_distribution <-
          moveaxis x_dist (arange (List.length x_ind)) x_ind ;;
        y_distribution <-
          moveaxis y_dist (arange (List.length y_ind)) y_ind ;;
        x_view <-
          getitem x_distribution
            (repeat SliceAll (List.length (get_variables x))
             ++ repeat NewAxis (List.length y_not_in_x)) ;;
        y_view <-
          getitem y_distribution
            (repeat NewAxis (List.length x_not_in_y) ++ [SliceAll]) ;;
        res_distribution <- multiply x_view y_view ;;
        factor_init (Some (x_not_in_y ++ xy ++ y_not_in_x))
                    (Some res_distribution).

Definition factor_marginalization (x : factor) (variables : list string)
  : result factor :=
  if is_none x then Raise (Exception "Factor is None")
  else if negb (np_all (in1d variables (get_variables x)))
  then Raise (Exception "Factor do not contain given variables")
  else
    let res_variables := setdiff1d (get_variables x) variables in
    x_dist <- the (get_distribution x) ;;
    res_distribution <-
      np_sum x_dist (where_ (isin (get_variables x) variables false)) ;;
    factor_init (Some res_variables) (Some res_distribution).

(** [variable] and [value] are [None] when the caller leaves them out. *)
Definition factor_reduction (x : factor) (variable : option string)
           (value : option Z) : result factor :=
  match variable, value with
  | Some variable, Some value =>
      if is_none x then Raise (Exception "Input is None")
      else if negb (np_any (eq_scalar variable (get_variables x)))
      then Raise (Exception "Factor do not contain given variable")
      else
        x_shape <- the (get_shape x) ;;
        card <- fancy x_shape (where_ (eq_scalar variable (get_variables x))) ;;
        out_of_range <-
          truth (map (fun c => (Z.of_nat c <=? value)%Z) card) ;;
        if out_of_range
        then Raise (Exception "Incorrect value of given variable")
        else
          let res_variables := setdiff1d (get_variables x) [variable] in
          x_dist <- the (get_distribution x) ;;
          axis <- int_of (where_ (eq_scalar variable (get_variables x))) ;;
          res_distribution <- take x_dist value axis ;;
          factor_init (Some res_variables) (Some res_distribution)
  | _, _ => Raise (Exception "Input is None")
  end.

(** The first loop of [joint_distribution]: every element is checked. *)
Fixpoint check_none (ar : list factor) : result unit :=
  match ar with
  | [] => Ok tt
  | element :: ar' =>
      if is_none element then Raise (Exception "Factor is None")
      else check_none ar'
  end.

(** The second loop: [res = factor_product(res, element)], leaving at the
    first exception. *)
Fixpoint product_loop (res : factor) (ar : list factor) : result factor :=
  match ar with
  | [] => Ok res
  | element :: ar' =>
      res' <- factor_product res element ;;
      product_loop res' ar'
  end.

Definition joint_distribution (ar : list factor) : result factor :=
  _ <- check_none ar ;;
  match ar with
  | [] => Raise IndexError
  | res :: rest => product_loop res rest
  end.

(** ** Vocabulary of the statements *)

(** A factor of the data model that holds a tensor: built by the
    constructor from names and an array, the names without repetition. *)
Definition valid_factor (x : factor) : Prop :=
  exists vs d, factor_init (Some vs) (Some d) = Ok x /\ NoDup vs.

(** The left fold of the product over [f1, rest...], in the words of the
    specification: the result starts as [f1], each further factor is
    multiplied in, and a failure is the result of the whole. *)
Definition left_fold_product (f1 : factor) (rest : list factor)
  : result factor :=
  fold_left (fun acc f => res <- acc ;; factor_product res f) rest (Ok f1).

(** An empty factor: built by the constructor from names alone. *)
Definition empty_factor (e : factor) : Prop :=
  exists vs, factor_init (Some vs) None = Ok e.

(** The tensor of a factor that holds one. *)
Definition tensor (x : factor) : ndarray :=
  match f_distribution x with
  | Some d => d
  | None => mk_ndarray [] []
  end.

(** The entry of [x] at the assignment [env] of its variables. *)
Definition value (x : factor) (env : string -> nat) : R :=
  get (tensor x) (map env (f_variables x)).

(** The cardinality of a variable of [x]: the extent of its axis. *)
Definition cardinality (x : factor) (v : string) : nat :=
  card (f_variables x) (shape (tensor x)) v.

(** [env] gives every variable of [x] a value index below its
    cardinality. *)
Definition assignment (x : factor) (env : string -> nat) : Prop :=
  fits (f_variables x) (shape (tensor x)) env.

End Factors.

(** ** The factors of the notebook

    The example of the notebook over integers: the entries of [phi_1] and
    [phi_2] are in hundredths, those of their product [phi_3] in
    ten-thousandths. *)

Definition phi_1 : factor Z :=
  mk_factor Z ["a"; "b"]%string
            (Some (mk_ndarray Z [3; 2] [50; 80; 10; 0; 30; 90]%Z))
            (Some [3; 2]).

Definition phi_2 : factor Z :=
  mk_factor Z ["b"; "c"]%string
            (Some (mk_ndarray Z [2; 2] [50; 70; 10; 20]%Z))
            (Some [2; 2]).

Definition phi_3 : factor Z :=
  mk_factor Z ["a"; "b"; "c"]%string
            (Some (mk_ndarray Z [3; 2; 2]
                     [2500; 3500; 800; 1600; 500; 700; 0; 0;
                      1500; 2100; 900; 1800]%Z))
            (Some [3; 2; 2]).

(** A factor that shares no variable with [phi_1], one whose ["b"] has
    three values, and an empty factor. *)
Definition phi_disjoint : factor Z :=
  mk_factor Z ["c"; "d"]%string
            (Some (mk_ndarray Z [2; 2] [1; 2; 3; 4]%Z))
            (Some [2; 2]).

Definition phi_wide : factor Z :=
  mk_factor Z ["b"; "c"]%string
            (Some (mk_ndarray Z [3; 2] [1; 2; 3; 4; 5; 6]%Z))
            (Some [3; 2]).

Definition phi_none : factor Z := mk_factor Z ["a"]%string None None.

(** A factor whose names are not in increasing order. *)
Definition phi_ba : factor Z :=
  mk_factor Z ["b"; "a"]%string
            (Some (mk_ndarray Z [2; 3] [1; 2; 3; 4; 5; 6]%Z))
            (Some [2; 3]).

(** The factor an operation returned on the example. *)
Definition the_factor (res : result (factor Z)) : factor Z :=
  match res with
  | Ok f => f
  | Raise _ => phi_none
  end.

(** * Properties *)

(** ** Membership and positions *)

Lemma mem_In v l : mem v l = true <-> In v l.
Proof.
  unfold mem. rewrite existsb_exists. split.
  - intros [x [Hin Heq]]. apply String.eqb_eq in Heq. now subst.
  - intros Hin. exists v. split; [assumption | apply String.eqb_refl].
Qed.

Lemma mem_notin v l : mem v l = false <-> ~ In v l.
Proof.
  rewrite <- mem_In. destruct (mem v l); split; congruence.
Qed.

Lemma memn_In n l : memn n l = true <-> In n l.
Proof.
  unfold memn. rewrite existsb_exists. split.
  - intros [x [Hin Heq]]. apply Nat.eqb_eq in Heq. now subst.
  - intros Hin. exists n. split; [assumption | apply Nat.eqb_refl].
Qed.

Lemma memn_notin n l : memn n l = false <-> ~ In n l.
Proof.
  rewrite <- memn_In. destruct (memn n l); split; congruence.
Qed.

Lemma index_of_lt v l : In v l -> index_of v l < List.length l.
Proof.
  induction l as [|x l IH]; simpl; [contradiction|].
  intros Hin. destruct (String.eqb_spec x v); [lia|].
  destruct Hin as [->|Hin]; [congruence|]. specialize (IH Hin). lia.
Qed.

Lemma nth_index_of v l d : In v l -> nth (index_of v l) l d = v.
Proof.
  induction l as [|x l IH]; simpl; [contradiction|].
  intros Hin. destruct (String.eqb_spec x v); [assumption|].
  destruct Hin as [->|Hin]; [congruence|]. now apply IH.
Qed.

Lemma index_of_nth l i d :
  NoDup l -> i < List.length l -> index_of (nth i l d) l = i.
Proof.
  intros Hnd. revert i. induction Hnd as [|x l Hx Hnd IH]; simpl; intros i Hi.
  - lia.
  - destruct i as [|i].
    + now rewrite String.eqb_refl.
    + destruct (String.eqb_spec x (nth i l d)) as [->|_].
      * exfalso. apply Hx. apply nth_In. lia.
      * f_equal. apply IH. lia.
Qed.

Lemma index_of_app_l v l1 l2 :
  In v l1 -> index_of v (l1 ++ l2) = index_of v l1.
Proof.
  induction l1 as [|x l1 IH]; simpl; [contradiction|].
  intros Hin. destruct (String.eqb_spec x v); [reflexivity|].
  destruct Hin as [->|Hin]; [congruence|]. f_equal. now apply IH.
Qed.

Lemma index_of_app_r v l1 l2 :
  ~ In v l1 -> index_of v (l1 ++ l2) = List.length l1 + index_of v l2.
Proof.
  induction l1 as [|x l1 IH]; simpl; intros Hnin; [reflexivity|].
  destruct (String.eqb_spec x v) as [->|_].
  - exfalso. apply Hnin. now left.
  - f_equal. apply IH. intros H. apply Hnin. now right.
Qed.

Lemma nth_index_ofn n l d : In n l -> nth (index_ofn n l) l d = n.
Proof.
  induction l as [|x l IH]; simpl; [contradiction|].
  intros Hin. destruct (Nat.eqb_spec x n); [assumption|].
  destruct Hin as [->|Hin]; [congruence|]. now apply IH.
Qed.

Lemma index_ofn_nth l i d :
  NoDup l -> i < List.length l -> index_ofn (nth i l d) l = i.
Proof.
  intros Hnd. revert i. induction Hnd as [|x l Hx Hnd IH]; simpl; intros i Hi.
  - lia.
  - destruct i as [|i].
    + now rewrite Nat.eqb_refl.
    + destruct (Nat.eqb_spec x (nth i l d)) as [->|_].
      * exfalso. apply Hx. apply nth_In. lia.
      * f_equal. apply IH. lia.
Qed.

Lemma nodupb_NoDup l : nodupb l = true <-> NoDup l.
Proof.
  induction l as [|x l IH]; simpl.
  - split; [constructor | reflexivity].
  - rewrite andb_true_iff, negb_true_iff, memn_notin, IH. split.
    + intros [H1 H2]. now constructor.
    + intros H. inversion H. now split.
Qed.

(** ** [np.unique] and the set routines *)

Lemma str_lt_trans a b c : str_lt a b -> str_lt b c -> str_lt a c.
Proof.
  unfold str_lt. intros H1 H2.
  apply String_as_OT.cmp_lt in H1. apply String_as_OT.cmp_lt in H2.
  apply String_as_OT.cmp_lt. eapply String_as_OT.lt_trans; eassumption.
Qed.

Lemma str_lt_irrefl a : ~ str_lt a a.
Proof.
  unfold str_lt. intros H. apply String_as_OT.cmp_lt in H.
  apply String_as_OT.lt_not_eq in H. apply H. reflexivity.
Qed.

Lemma In_insert_unique w v l : In w (insert_unique v l) <-> w = v \/ In w l.
Proof.
  induction l as [|x l IH]; simpl.
  - intuition.
  - destruct (String.compare v x) eqn:Hc; simpl.
    + apply String.compare_eq_iff in Hc. subst. intuition.
    + intuition.
    + rewrite IH. intuition.
Qed.

Lemma In_unique w l : In w (unique l) <-> In w l.
Proof.
  induction l as [|x l IH]; simpl; [reflexivity|].
  rewrite In_insert_unique, IH. intuition.
Qed.

Lemma sorted_insert_unique v l :
  StronglySorted str_lt l -> StronglySorted str_lt (insert_unique v l).
Proof.
  induction 1 as [|x l Hs IH Hall]; simpl.
  - repeat constructor.
  - destruct (String.compare v x) eqn:Hc.
    + now constructor.
    + constructor; [now constructor|].
      constructor; [assumption|].
      eapply Forall_impl; [|exact Hall].
      intros z Hz. eapply str_lt_trans; eassumption.
    + constructor; [assumption|].
      apply Forall_forall. intros z Hz. apply In_insert_unique in Hz.
      destruct Hz as [->|Hz].
      * unfold str_lt. rewrite String.compare_antisym, Hc. reflexivity.
      * rewrite Forall_forall in Hall. now apply Hall.
Qed.

Lemma sorted_unique l : StronglySorted str_lt (unique l).
Proof.
  induction l as [|x l IH]; simpl; [constructor|].
  now apply sorted_insert_unique.
Qed.

Lemma sorted_NoDup l : StronglySorted str_lt l -> NoDup l.
Proof.
  induction 1 as [|x l Hs IH Hall]; constructor; [|assumption].
  intros Hin. rewrite Forall_forall in Hall.
  exact (str_lt_irrefl x (Hall x Hin)).
Qed.

Lemma sorted_filter (f : string -> bool) l :
  StronglySorted str_lt l -> StronglySorted str_lt (filter f l).
Proof.
  induction 1 as [|x l Hs IH Hall]; simpl; [constructor|].
  destruct (f x); [|assumption].
  constructor; [assumption|].
  apply Forall_forall. intros z Hz. apply filter_In in Hz.
  rewrite Forall_forall in Hall. now apply Hall.
Qed.

Lemma select_isin ar1 ar2 inv :
  select ar1 (isin ar1 ar2 inv)
  = filter (fun v => xorb inv (mem v ar2)) ar1.
Proof.
  unfold isin. induction ar1 as [|a ar1 IH]; simpl; [reflexivity|].
  rewrite IH. reflexivity.
Qed.

Lemma setdiff1d_filter ar1 ar2 :
  setdiff1d ar1 ar2 = filter (fun v => negb (mem v ar2)) ar1.
Proof. unfold setdiff1d. now rewrite select_isin. Qed.

Lemma In_setdiff1d v ar1 ar2 :
  In v (setdiff1d ar1 ar2) <-> In v ar1 /\ ~ In v ar2.
Proof.
  rewrite setdiff1d_filter, filter_In, negb_true_iff, mem_notin. reflexivity.
Qed.

Lemma NoDup_setdiff1d ar1 ar2 : NoDup ar1 -> NoDup (setdiff1d ar1 ar2).
Proof. rewrite setdiff1d_filter. apply NoDup_filter. Qed.

(** ** Multi-indices and [tabulate] *)

Lemma length_indices sh : List.length (indices sh) = size sh.
Proof.
  induction sh as [|n sh IH]; simpl; [reflexivity|].
  generalize 0 as s. induction n as [|n IHn]; simpl; intros s; [reflexivity|].
  rewrite length_app, length_map, IH, IHn. reflexivity.
Qed.

Lemma in_range_length sh idx : in_range sh idx -> List.length idx = List.length sh.
Proof. apply Forall2_length. Qed.

Lemma ravel_lt sh idx : in_range sh idx -> ravel sh idx < size sh.
Proof.
  unfold in_range. intros H. induction H as [|i n idx sh Hi H IH]; simpl.
  - lia.
  - nia.
Qed.

Lemma nth_blocks {A : Type} (g : nat -> list A) (m n s i r : nat) (d : A) :
  (forall k, List.length (g k) = m) ->
  i < n -> r < m ->
  nth (i * m + r) (flat_map g (seq s n)) d = nth r (g (s + i)) d.
Proof.
  intros Hlen. revert s i. induction n as [|n IH]; intros s i Hi Hr; [lia|].
  simpl. destruct i as [|i].
  - simpl. rewrite app_nth1 by (rewrite Hlen; lia). now rewrite Nat.add_0_r.
  - rewrite app_nth2 by (rewrite Hlen; simpl; lia).
    rewrite Hlen. replace (S i * m + r - m) with (i * m + r) by (simpl; lia).
    rewrite IH by lia. f_equal. f_equal. lia.
Qed.

Lemma nth_indices sh idx d :
  in_range sh idx -> nth (ravel sh idx) (indices sh) d = idx.
Proof.
  unfold in_range. intros H. revert d.
  induction H as [|i n idx sh Hi H IH]; intros d; simpl; [reflexivity|].
  rewrite (nth_blocks (fun i => map (cons i) (indices sh)) (size sh) n 0 i)
    by (try (intros k; rewrite length_map; apply length_indices);
        try assumption; apply ravel_lt; assumption).
  simpl.
  rewrite (nth_indep _ d (i :: d)) by (rewrite length_map, length_indices;
                                          now apply ravel_lt).
  rewrite map_nth. now rewrite IH.
Qed.

Lemma In_indices sh idx : In idx (indices sh) <-> in_range sh idx.
Proof.
  unfold in_range. revert idx. induction sh as [|n sh IH]; intros idx; simpl.
  - split.
    + intros [<-|[]]. constructor.
    + intros H. inversion H. now left.
  - rewrite in_flat_map. split.
    + intros [i [Hi Hin]]. apply in_map_iff in Hin.
      destruct Hin as [idx' [<- Hin]]. apply in_seq in Hi.
      constructor; [lia | now apply IH].
    + intros H. inversion H as [|i n' idx' sh' Hi H']; subst.
      exists i. split; [apply in_seq; lia|].
      apply in_map. now apply IH.
Qed.

(** ** In-place updates: the axis tables [x_ind] and [y_ind] *)

Lemma nth_map_in {A B : Type} (f : A -> B) l i d d' :
  i < List.length l -> nth i (map f l) d' = f (nth i l d).
Proof.
  intros Hi. rewrite (nth_indep _ d' (f d)) by now rewrite length_map.
  apply map_nth.
Qed.

Lemma length_update {A : Type} i (v : A) ar :
  List.length (update i v ar) = List.length ar.
Proof.
  revert i. induction ar as [|a ar IH]; intros [|i]; simpl; auto.
Qed.

Lemma nth_update_eq {A : Type} i (v d : A) ar :
  i < List.length ar -> nth i (update i v ar) d = v.
Proof.
  revert i. induction ar as [|a ar IH]; intros [|i]; simpl; intros Hi;
    try lia; [reflexivity | apply IH; lia].
Qed.

Lemma nth_update_neq {A : Type} i j (v d : A) ar :
  i <> j -> nth i (update j v ar) d = nth i ar d.
Proof.
  revert i j. induction ar as [|a ar IH]; intros [|i] [|j]; simpl; intros Hij;
    try reflexivity; try lia. apply IH. lia.
Qed.

Lemma length_set_index {A : Type} (ar : list A) ind vals :
  List.length (set_index ar ind vals) = List.length ar.
Proof.
  unfold set_index. revert ar vals.
  induction ind as [|j ind IH]; intros ar [|v vals]; simpl; auto.
  rewrite IH. apply length_update.
Qed.

Lemma nth_set_index {A : Type} (ar : list A) ind vals i d :
  NoDup ind -> List.length ind = List.length vals ->
  (forall j, In j ind -> j < List.length ar) ->
  nth i (set_index ar ind vals) d
  = if memn i ind then nth (index_ofn i ind) vals d else nth i ar d.
Proof.
  unfold set_index. intros Hnd. revert ar vals.
  induction Hnd as [|j ind Hj Hnd IH]; intros ar vals Hlen Hlt.
  - reflexivity.
  - destruct vals as [|v vals]; [discriminate|]. simpl in Hlen.
    simpl combine. simpl fold_left.
    rewrite IH; [|lia|].
    2:{ intros k Hk. rewrite length_update. apply Hlt. now right. }
    unfold memn at 2. simpl existsb. fold (memn i ind).
    simpl index_ofn. rewrite (Nat.eqb_sym j i).
    destruct (Nat.eqb_spec i j) as [->|Hne].
    + assert (Hm : memn j ind = false) by now apply memn_notin.
      rewrite Hm. simpl. apply nth_update_eq. apply Hlt. now left.
    + simpl. destruct (memn i ind); [reflexivity|].
      now apply nth_update_neq.
Qed.

Lemma length_set_mask {A : Type} (ar : list A) mask vals :
  List.length (set_mask ar mask vals) = List.length ar.
Proof.
  revert mask vals. induction ar as [|a ar IH]; intros mask vals; simpl.
  - reflexivity.
  - destruct mask as [|[|] mask]; simpl; auto.
    destruct vals; simpl; auto.
Qed.

Lemma count_true_map (P : string -> bool) l :
  count_true (map P l) = List.length (filter P l).
Proof.
  unfold count_true. induction l as [|a l IH]; simpl; [reflexivity|].
  destruct (P a); simpl; auto.
Qed.

(** The values written under a mask: each selected name gets the value of
    its rank among the selected names. *)
Lemma set_mask_rank {A : Type} (P : string -> bool) (g : nat -> A) (d : A)
      (l : list string) (k : nat) :
  NoDup l ->
  set_mask (repeat d (List.length l)) (map P l)
           (map g (seq k (count_true (map P l))))
  = map (fun v => if P v then g (k + index_of v (filter P l)) else d) l.
Proof.
  intros Hnd. revert k. induction Hnd as [|a l Ha Hnd IH]; intros k.
  - reflexivity.
  - simpl map at 1. simpl repeat. rewrite count_true_map. simpl filter.
    destruct (P a) eqn:HPa.
    + simpl. rewrite HPa. f_equal.
      * rewrite String.eqb_refl. f_equal. lia.
      * rewrite <- count_true_map, IH. apply map_ext_in.
        intros v Hv. destruct (P v); [|reflexivity].
        destruct (String.eqb_spec a v) as [->|_]; [contradiction|].
        f_equal. lia.
    + simpl. rewrite HPa. f_equal.
      rewrite <- count_true_map. apply IH.
Qed.

Lemma index_ofn_map_index_of (vs sub : list string) v :
  incl sub vs -> In v sub ->
  index_ofn (index_of v vs) (map (fun w => index_of w vs) sub)
  = index_of v sub.
Proof.
  intros Hincl Hin. induction sub as [|w sub IH]; simpl; [contradiction|].
  assert (Hw : In w vs) by (apply Hincl; now left).
  assert (Hv : In v vs) by now apply Hincl.
  destruct (String.eqb_spec w v) as [->|Hne].
  - now rewrite Nat.eqb_refl.
  - destruct (Nat.eqb_spec (index_of w vs) (index_of v vs)) as [Heq|_].
    + exfalso. apply Hne.
      rewrite <- (nth_index_of w vs ""%string Hw).
      rewrite <- (nth_index_of v vs ""%string Hv). now rewrite Heq.
    + f_equal. apply IH.
      * intros z Hz. apply Hincl. now right.
      * destruct Hin as [->|Hin]; [congruence | assumption].
Qed.

Lemma NoDup_map_index_of (vs sub : list string) :
  incl sub vs -> NoDup sub -> NoDup (map (fun w => index_of w vs) sub).
Proof.
  intros Hincl Hnd. induction Hnd as [|w sub Hw Hnd IH]; simpl; constructor.
  - intros Hin. apply in_map_iff in Hin. destruct Hin as [z [Heq Hz]].
    apply Hw. replace w with z; [assumption|].
    rewrite <- (nth_index_of z vs ""%string) by (apply Hincl; now right).
    rewrite <- (nth_index_of w vs ""%string) by (apply Hincl; now left).
    now rewrite Heq.
  - apply IH. intros z Hz. apply Hincl. now right.
Qed.

(** The table built by the two assignments of [factor_product]: a name
    outside [shared] is sent to its rank among the names outside, a shared
    name to its rank in [shared]. *)
Lemma axis_table (vs shared : list string) (g h : nat -> Z) :
  NoDup vs -> NoDup shared -> incl shared vs ->
  set_index
    (set_mask (repeat (-1)%Z (List.length vs)) (isin vs shared true)
              (map g (seq 0 (count_true (isin vs shared true)))))
    (map (fun w => index_of w vs) shared)
    (map h (seq 0 (List.length shared)))
  = map (fun v => if mem v shared then h (index_of v shared)
                  else g (index_of v (setdiff1d vs shared))) vs.
Proof.
  intros Hvs Hsh Hincl.
  apply (nth_ext _ _ 0%Z 0%Z).
  - now rewrite length_set_index, length_set_mask, repeat_length, length_map.
  - intros i Hi.
    rewrite length_set_index, length_set_mask, repeat_length in Hi.
    rewrite nth_set_index.
    2:{ now apply NoDup_map_index_of. }
    2:{ now rewrite !length_map, length_seq. }
    2:{ intros j Hj. apply in_map_iff in Hj. destruct Hj as [w [<- Hw]].
        rewrite length_set_mask, repeat_length. apply index_of_lt.
        now apply Hincl. }
    set (v := nth i vs ""%string).
    assert (Hv : In v vs) by (apply nth_In; assumption).
    assert (Hiv : index_of v vs = i) by (apply index_of_nth; assumption).
    rewrite (nth_map_in _ vs i ""%string 0%Z Hi). fold v.
    destruct (mem v shared) eqn:Hm.
    + apply mem_In in Hm.
      assert (Hmi : memn i (map (fun w => index_of w vs) shared) = true).
      { apply memn_In. apply in_map_iff. exists v. now split. }
      rewrite Hmi. rewrite <- Hiv, index_ofn_map_index_of by assumption.
      rewrite (nth_map_in _ _ _ 0 0%Z)
        by (rewrite length_seq; now apply index_of_lt).
      rewrite seq_nth by now apply index_of_lt. reflexivity.
    + assert (Hmi : memn i (map (fun w => index_of w vs) shared) = false).
      { apply memn_notin. intros Hin. apply in_map_iff in Hin.
        destruct Hin as [w [Heq Hw]]. apply mem_notin in Hm. apply Hm.
        replace v with w; [assumption|].
        rewrite <- (nth_index_of w vs ""%string) by now apply Hincl.
        now rewrite Heq. }
      rewrite Hmi. unfold isin.
      rewrite (set_mask_rank (fun v => xorb true (mem v shared)) g (-1)%Z vs 0)
        by assumption.
      rewrite (nth_map_in _ vs i ""%string 0%Z Hi). fold v. rewrite Hm. simpl.
      rewrite setdiff1d_filter. reflexivity.
Qed.

(** ** [sorted] on pairs, and the axis order of [moveaxis] *)

Lemma pair_leb_iff p q :
  pair_leb p q = true
  <-> fst p < fst q \/ (fst p = fst q /\ snd p <= snd q).
Proof.
  unfold pair_leb.
  rewrite orb_true_iff, andb_true_iff, Nat.ltb_lt, Nat.eqb_eq, Nat.leb_le.
  reflexivity.
Qed.

Lemma pair_leb_total p q : pair_leb p q = false -> pair_leb q p = true.
Proof.
  intros H. apply pair_leb_iff.
  destruct (pair_leb q p) eqn:Hq; [now apply pair_leb_iff|].
  assert (H1 : ~ (fst p < fst q \/ (fst p = fst q /\ snd p <= snd q)))
    by (rewrite <- pair_leb_iff; congruence).
  lia.
Qed.

Lemma pair_le_trans p q r :
  pair_le p q -> pair_le q r -> pair_le p r.
Proof.
  unfold pair_le. rewrite !pair_leb_iff. lia.
Qed.

Lemma pair_le_antisym p q : pair_le p q -> pair_le q p -> p = q.
Proof.
  unfold pair_le. rewrite !pair_leb_iff. destruct p, q; simpl.
  intros H1 H2. f_equal; lia.
Qed.

Lemma insert_pair_perm p l : Permutation (insert_pair p l) (p :: l).
Proof.
  induction l as [|q l IH]; simpl; [reflexivity|].
  destruct (pair_leb p q); [reflexivity|].
  rewrite IH. apply perm_swap.
Qed.

Lemma sorted_perm l : Permutation (sorted l) l.
Proof.
  induction l as [|p l IH]; simpl; [reflexivity|].
  rewrite insert_pair_perm. now constructor.
Qed.

Lemma insert_pair_sorted p l :
  StronglySorted pair_le l -> StronglySorted pair_le (insert_pair p l).
Proof.
  induction 1 as [|q l Hs IH Hall]; simpl.
  - repeat constructor.
  - destruct (pair_leb p q) eqn:Hpq.
    + constructor; [now constructor|].
      constructor; [exact Hpq|].
      eapply Forall_impl; [|exact Hall].
      intros r Hr. eapply pair_le_trans; [exact Hpq | exact Hr].
    + constructor; [assumption|].
      apply Forall_forall. intros r Hr.
      apply (Permutation_in _ (insert_pair_perm p l)) in Hr.
      destruct Hr as [<-|Hr].
      * now apply pair_leb_total.
      * rewrite Forall_forall in Hall. now apply Hall.
Qed.

Lemma sorted_sorted l : StronglySorted pair_le (sorted l).
Proof.
  induction l as [|p l IH]; simpl; [constructor|].
  now apply insert_pair_sorted.
Qed.

(** A list has one sorted arrangement. *)
Lemma sorted_arrangement l1 l2 :
  StronglySorted pair_le l1 -> StronglySorted pair_le l2 ->
  Permutation l1 l2 -> l1 = l2.
Proof.
  intros H1. revert l2. induction H1 as [|p l1 Hs1 IH Hall1]; intros l2 H2 Hp.
  - apply Permutation_nil in Hp. now subst.
  - destruct H2 as [|q l2 Hs2 Hall2].
    + apply Permutation_sym, Permutation_nil in Hp. discriminate.
    + assert (Hpq : p = q).
      { rewrite Forall_forall in Hall1, Hall2.
        assert (Hq : In q (p :: l1))
          by (eapply Permutation_in; [apply Permutation_sym, Hp | now left]).
        assert (Hp' : In p (q :: l2))
          by (eapply Permutation_in; [apply Hp | now left]).
        destruct Hq as [Hq|Hq]; [assumption|].
        destruct Hp' as [Hp'|Hp']; [now symmetry|].
        apply pair_le_antisym; [now apply Hall1 | now apply Hall2]. }
      subst q. f_equal. apply IH; [assumption|].
      eapply Permutation_cons_inv; exact Hp.
Qed.

Lemma index_ofn_lt n l : In n l -> index_ofn n l < List.length l.
Proof.
  induction l as [|x l IH]; simpl; [contradiction|].
  intros Hin. destruct (Nat.eqb_spec x n); [lia|].
  destruct Hin as [->|Hin]; [congruence|]. specialize (IH Hin). lia.
Qed.

(** A table of [n] distinct axes below [n] holds every axis below [n]. *)
Lemma axes_all n dst k :
  List.length dst = n -> NoDup dst -> (forall d, In d dst -> d < n) ->
  k < n -> In k dst.
Proof.
  intros Hlen Hnd Hlt Hk.
  apply (NoDup_length_incl Hnd (l' := seq 0 n)).
  - rewrite length_seq. lia.
  - intros d Hd. apply in_seq. specialize (Hlt d Hd). lia.
  - apply in_seq. lia.
Qed.

Lemma sorted_increasing (g : nat -> nat) s m :
  StronglySorted pair_le (map (fun k => (k, g k)) (seq s m)).
Proof.
  revert s. induction m as [|m IH]; intros s; simpl; constructor.
  - apply IH.
  - apply Forall_forall. intros p Hp. apply in_map_iff in Hp.
    destruct Hp as [k [<- Hk]]. apply in_seq in Hk.
    apply pair_leb_iff. simpl. lia.
Qed.

Lemma map_fst_combine_seq (dst : list nat) n :
  List.length dst = n -> map fst (combine dst (seq 0 n)) = dst.
Proof.
  intros <-. generalize 0 as s.
  induction dst as [|d dst IH]; intros s; simpl; [reflexivity|].
  now rewrite IH.
Qed.

Lemma sorted_combine n dst :
  List.length dst = n -> NoDup dst -> (forall d, In d dst -> d < n) ->
  sorted (combine dst (seq 0 n))
  = map (fun k => (k, index_ofn k dst)) (seq 0 n).
Proof.
  intros Hlen Hnd Hlt.
  apply sorted_arrangement.
  - apply sorted_sorted.
  - apply sorted_increasing.
  - rewrite sorted_perm. apply NoDup_Permutation.
    + apply NoDup_map_inv with (f := fst). rewrite map_fst_combine_seq by assumption.
      assumption.
    + apply NoDup_map_inv with (f := fst). rewrite map_map. simpl.
      rewrite map_id. apply seq_NoDup.
    + intros [d s]. split.
      * intros Hin. apply (In_nth _ _ (0, 0)) in Hin.
        destruct Hin as [i [Hi Heq]].
        rewrite length_combine, length_seq, Hlen, Nat.min_id in Hi.
        rewrite combine_nth in Heq by now rewrite length_seq.
        rewrite seq_nth in Heq by assumption. simpl in Heq.
        inversion Heq; subst d s. apply in_map_iff.
        exists (nth i dst 0). split.
        -- f_equal. apply index_ofn_nth; [assumption | lia].
        -- apply in_seq. split; [lia|]. simpl. apply Hlt. apply nth_In. lia.
      * intros Hin. apply in_map_iff in Hin. destruct Hin as [k [Heq Hk]].
        inversion Heq; subst d s. apply in_seq in Hk.
        assert (Hkd : In k dst) by (apply (axes_all n); assumption || lia).
        pose proof (index_ofn_lt k dst Hkd) as Hi.
        replace (k, index_ofn k dst)
          with (nth (index_ofn k dst) (combine dst (seq 0 n)) (0, 0)).
        -- apply nth_In. rewrite length_combine, length_seq. lia.
        -- rewrite combine_nth by now rewrite length_seq.
           rewrite seq_nth by lia. now rewrite nth_index_ofn.
Qed.

Lemma fold_insert_append (g : nat -> nat) m s o :
  List.length o = s ->
  fold_left (fun o p => list_insert (fst p) (snd p) o)
            (map (fun k => (k, g k)) (seq s m)) o
  = o ++ map g (seq s m).
Proof.
  revert s o. induction m as [|m IH]; intros s o Hlen; simpl.
  - now rewrite app_nil_r.
  - unfold list_insert at 2. simpl.
    rewrite firstn_all2, skipn_all2 by lia.
    rewrite IH by (rewrite length_app; simpl; lia).
    now rewrite <- app_assoc.
Qed.

Lemma filter_none_seq n :
  filter (fun k => negb (memn k (seq 0 n))) (seq 0 n) = [].
Proof.
  generalize (seq 0 n) as l. intros l.
  assert (H : forall l', incl l' l ->
                         filter (fun k => negb (memn k l)) l' = []).
  { induction l' as [|a l' IH]; intros Hincl; simpl; [reflexivity|].
    assert (Ha : memn a l = true) by (apply memn_In, Hincl; now left).
    rewrite Ha. simpl. apply IH. intros z Hz. apply Hincl. now right. }
  apply H. apply incl_refl.
Qed.

Lemma mapM_normalize n l :
  (forall d, In d l -> d < n) ->
  mapM (normalize_axis_index n) (map Z.of_nat l) = Ok l.
Proof.
  induction l as [|d l IH]; intros Hlt; simpl; [reflexivity|].
  rewrite IH by (intros z Hz; apply Hlt; now right).
  assert (Hd : d < n) by (apply Hlt; now left).
  unfold normalize_axis_index.
  replace ((- Z.of_nat n <=? Z.of_nat d)%Z) with true
    by (symmetry; apply Z.leb_le; lia).
  replace ((Z.of_nat d <? Z.of_nat n)%Z) with true
    by (symmetry; apply Z.ltb_lt; lia).
  replace ((Z.of_nat d <? 0)%Z) with false
    by (symmetry; apply Z.ltb_ge; lia).
  simpl. now rewrite Nat2Z.id.
Qed.

Lemma normalize_axis_tuple_nat n l :
  NoDup l -> (forall d, In d l -> d < n) ->
  normalize_axis_tuple n (map Z.of_nat l) = Ok l.
Proof.
  intros Hnd Hlt. unfold normalize_axis_tuple.
  rewrite mapM_normalize by assumption. simpl.
  apply nodupb_NoDup in Hnd. now rewrite Hnd.
Qed.

Lemma map_nth_seq {A B : Type} (F : A -> B) (l : list A) (d : A) :
  map (fun k => F (nth k l d)) (seq 0 (List.length l)) = map F l.
Proof.
  apply (nth_ext _ _ (F d) (F d)).
  - now rewrite !length_map, length_seq.
  - intros i Hi. rewrite length_map, length_seq in Hi.
    rewrite (nth_map_in _ _ _ 0) by now rewrite length_seq.
    rewrite seq_nth by assumption. simpl.
    now rewrite (nth_map_in _ _ _ d).
Qed.

Lemma Forall2_map_in {A B C : Type} (P : B -> C -> Prop)
      (f : A -> B) (g : A -> C) l :
  (forall a, In a l -> P (f a) (g a)) -> Forall2 P (map f l) (map g l).
Proof.
  induction l as [|a l IH]; intros H; simpl; constructor.
  - apply H. now left.
  - apply IH. intros b Hb. apply H. now right.
Qed.

Lemma same_names_length (vs ws : list string) :
  NoDup vs -> NoDup ws -> (forall v, In v vs <-> In v ws) ->
  List.length vs = List.length ws.
Proof.
  intros H1 H2 H. apply Permutation_length. now apply NoDup_Permutation.
Qed.

(** The destination table of the names [vs] sent to their positions in
    [ws], read backwards: the axis order, position by position. *)
Lemma order_of_table (vs ws : list string) :
  NoDup vs -> NoDup ws -> (forall v, In v vs <-> In v ws) ->
  map (fun k => index_ofn k (map (fun v => index_of v ws) vs))
      (seq 0 (List.length vs))
  = map (fun w => index_of w vs) ws.
Proof.
  intros Hvs Hws Hsame.
  rewrite (same_names_length vs ws) by assumption.
  rewrite <- (map_nth_seq (fun w => index_of w vs) ws ""%string).
  apply map_ext_in. intros k Hk. apply in_seq in Hk.
  set (w := nth k ws ""%string).
  assert (Hw : In w ws) by (apply nth_In; lia).
  replace k with (index_of w ws) at 1 by (apply index_of_nth; [assumption|lia]).
  apply index_ofn_map_index_of.
  - intros z Hz. now apply Hsame.
  - now apply Hsame.
Qed.

(** ** Shapes under indexing and broadcasting *)

Lemma size_app sh1 sh2 : size (sh1 ++ sh2) = size sh1 * size sh2.
Proof.
  induction sh1 as [|n sh1 IH]; simpl; [lia|]. rewrite IH. lia.
Qed.

Lemma size_ones k : size (repeat 1 k) = 1.
Proof. induction k as [|k IH]; simpl; lia. Qed.

Lemma ravel_app sh1 sh2 idx1 idx2 :
  List.length idx1 = List.length sh1 ->
  ravel (sh1 ++ sh2) (idx1 ++ idx2)
  = ravel sh1 idx1 * size sh2 + ravel sh2 idx2.
Proof.
  revert idx1. induction sh1 as [|n sh1 IH]; intros [|i idx1] Hlen;
    try discriminate; simpl; [reflexivity|].
  rewrite IH by (simpl in Hlen; lia). rewrite size_app. lia.
Qed.

Lemma ravel_ones k : ravel (repeat 1 k) (repeat 0 k) = 0.
Proof. induction k as [|k IH]; simpl; [reflexivity | assumption]. Qed.

Lemma getitem_shape_trailing sh k :
  getitem_shape (repeat SliceAll (List.length sh) ++ repeat NewAxis k) sh
  = Ok (sh ++ repeat 1 k).
Proof.
  induction sh as [|n sh IH]; simpl.
  - induction k as [|k IHk]; simpl; [reflexivity|]. now rewrite IHk.
  - now rewrite IH.
Qed.

Lemma getitem_shape_leading sh k :
  sh <> [] ->
  getitem_shape (repeat NewAxis k ++ [SliceAll]) sh = Ok (repeat 1 k ++ sh).
Proof.
  intros Hne. induction k as [|k IHk]; simpl.
  - destruct sh as [|n sh]; [congruence | reflexivity].
  - now rewrite IHk.
Qed.

Lemma broadcast_dims_layout A S B :
  broadcast_dims (A ++ S ++ repeat 1 (List.length B))
                 (repeat 1 (List.length A) ++ S ++ B)
  = Ok (A ++ S ++ B).
Proof.
  induction A as [|a A IH]; simpl.
  - induction S as [|s S IHS]; simpl.
    + induction B as [|b B IHB]; simpl; [reflexivity|].
      rewrite IHB. destruct b as [|[|b]]; reflexivity.
    + now rewrite Nat.eqb_refl, IHS.
  - rewrite IH. destruct (Nat.eqb_spec a 1) as [->|_]; reflexivity.
Qed.

Lemma combine_app {A B : Type} (l1 l2 : list A) (m1 m2 : list B) :
  List.length l1 = List.length m1 ->
  combine (l1 ++ l2) (m1 ++ m2) = combine l1 m1 ++ combine l2 m2.
Proof.
  revert m1. induction l1 as [|a l1 IH]; intros [|b m1] Hlen;
    try discriminate; simpl; [reflexivity|].
  f_equal. apply IH. simpl in Hlen. lia.
Qed.

Lemma broadcast_keep sh idx :
  in_range sh idx ->
  map (fun p => if fst p =? 1 then 0 else snd p) (combine sh idx) = idx.
Proof.
  unfold in_range. induction 1 as [|i n idx sh Hi H IH]; simpl;
    [reflexivity|].
  rewrite IH. destruct (Nat.eqb_spec n 1); [f_equal; lia | reflexivity].
Qed.

Lemma broadcast_ones k idx :
  List.length idx = k ->
  map (fun p => if fst p =? 1 then 0 else snd p) (combine (repeat 1 k) idx)
  = repeat 0 k.
Proof.
  intros <-. induction idx as [|i idx IH]; simpl; [reflexivity|].
  now rewrite IH.
Qed.

Lemma in_range_app sh1 sh2 idx1 idx2 :
  in_range sh1 idx1 -> in_range sh2 idx2 ->
  in_range (sh1 ++ sh2) (idx1 ++ idx2).
Proof. unfold in_range. apply Forall2_app. Qed.

Lemma fancy_cards vs sh sub :
  List.length vs = List.length sh -> incl sub vs ->
  fancy sh (map (fun w => index_of w vs) sub) = Ok (map (card vs sh) sub).
Proof.
  intros Hlen Hincl. unfold fancy.
  induction sub as [|w sub IH]; simpl; [reflexivity|].
  rewrite IH by (intros z Hz; apply Hincl; now right).
  assert (Hw : index_of w vs < List.length sh)
    by (rewrite <- Hlen; apply index_of_lt, Hincl; now left).
  destruct (nth_error sh (index_of w vs)) as [c|] eqn:Hc.
  - simpl. unfold card. now rewrite (nth_error_nth _ _ _ Hc).
  - apply nth_error_None in Hc. lia.
Qed.

Lemma np_all_array_eq l : np_all (array_eq l l) = true.
Proof.
  unfold np_all, array_eq. induction l as [|a l IH]; simpl; [reflexivity|].
  now rewrite Nat.eqb_refl, IH.
Qed.

Lemma np_all_array_eq_inv l1 l2 :
  List.length l1 = List.length l2 ->
  np_all (array_eq l1 l2) = true -> l1 = l2.
Proof.
  unfold np_all, array_eq. revert l2.
  induction l1 as [|a l1 IH]; intros [|b l2] Hlen; try discriminate; simpl;
    [reflexivity|].
  rewrite andb_true_iff, Nat.eqb_eq. intros [-> H]. f_equal.
  apply IH; [simpl in Hlen; lia | assumption].
Qed.

(** ** The shared variables *)

Lemma In_shared v xv yv :
  In v (filter (fun v => mem v yv) (unique xv)) <-> In v xv /\ In v yv.
Proof. now rewrite filter_In, In_unique, mem_In. Qed.

Lemma sorted_shared xv yv :
  StronglySorted str_lt (filter (fun v => mem v yv) (unique xv)).
Proof. apply sorted_filter, sorted_unique. Qed.

Lemma setdiff1d_shared xv yv shared :
  (forall v, In v shared <-> In v xv /\ In v yv) ->
  setdiff1d xv shared = setdiff1d xv yv.
Proof.
  intros Hsh. rewrite !setdiff1d_filter. apply filter_ext_in.
  intros v Hv. f_equal.
  destruct (mem v yv) eqn:Hy.
  - apply mem_In. apply Hsh. split; [assumption | now apply mem_In].
  - apply mem_notin. intros Hin. apply Hsh in Hin.
    apply mem_notin in Hy. tauto.
Qed.

Lemma count_outside xv shared :
  count_true (isin xv shared true) = List.length (setdiff1d xv shared).
Proof.
  unfold isin. now rewrite count_true_map, setdiff1d_filter.
Qed.

Lemma count_inside yv shared :
  NoDup yv -> NoDup shared -> incl shared yv ->
  count_true (map negb (isin yv shared true)) = List.length shared.
Proof.
  intros Hy Hs Hincl. unfold isin. rewrite map_map.
  rewrite (count_true_map (fun v => negb (xorb true (mem v shared)))).
  apply same_names_length; [now apply NoDup_filter | assumption |].
  intros v. rewrite filter_In, <- (mem_In v shared).
  destruct (mem v shared) eqn:Hm; simpl.
  - split; [tauto|]. intros _. split; [|reflexivity].
    apply Hincl. now apply mem_In.
  - split; [tauto | discriminate].
Qed.

(** The two axis tables of [factor_product], by name: each variable of [x]
    goes to its position in [x_only ++ shared], each variable of [y] to
    its position in [shared ++ y_only]. *)
Lemma x_table xv yv shared :
  NoDup xv -> NoDup shared ->
  (forall v, In v shared <-> In v xv /\ In v yv) ->
  set_index
    (set_mask (repeat (-1)%Z (List.length xv)) (isin xv shared true)
              (arange (count_true (isin xv shared true))))
    (map (fun w => index_of w xv) shared)
    (map (fun k => (k + Z.of_nat (count_true (isin xv shared true)))%Z)
         (arange (List.length shared)))
  = map (fun v => Z.of_nat (index_of v (setdiff1d xv yv ++ shared))) xv.
Proof.
  intros Hx Hs Hsh. unfold arange. rewrite map_map.
  rewrite (axis_table xv shared Z.of_nat) by
    (try assumption; intros v Hv; now apply Hsh).
  apply map_ext_in. intros v Hv.
  rewrite (setdiff1d_shared xv yv shared Hsh), count_outside.
  rewrite (setdiff1d_shared xv yv shared Hsh).
  destruct (mem v shared) eqn:Hm.
  - apply mem_In in Hm. rewrite index_of_app_r.
    + lia.
    + rewrite In_setdiff1d. apply Hsh in Hm. tauto.
  - apply mem_notin in Hm. rewrite index_of_app_l; [reflexivity|].
    rewrite In_setdiff1d. split; [assumption|].
    intros Hy. apply Hm. now apply Hsh.
Qed.

Lemma y_table xv yv shared :
  NoDup yv -> NoDup shared ->
  (forall v, In v shared <-> In v xv /\ In v yv) ->
  set_index
    (set_mask (repeat (-1)%Z (List.length yv)) (isin yv shared true)
              (map (fun k => (k + Z.of_nat
                                   (count_true (map negb (isin yv shared true))))%Z)
                   (arange (count_true (isin yv shared true)))))
    (map (fun w => index_of w yv) shared)
    (arange (List.length shared))
  = map (fun v => Z.of_nat (index_of v (shared ++ setdiff1d yv xv))) yv.
Proof.
  intros Hy Hs Hsh.
  assert (Hsh' : forall v, In v shared <-> In v yv /\ In v xv)
    by (intros v; rewrite Hsh; tauto).
  assert (Hincl : incl shared yv) by (intros v Hv; now apply Hsh').
  unfold arange. rewrite map_map.
  rewrite (axis_table yv shared _ Z.of_nat) by assumption.
  apply map_ext_in. intros v Hv.
  rewrite (setdiff1d_shared yv xv shared Hsh'), count_inside by assumption.
  destruct (mem v shared) eqn:Hm.
  - apply mem_In in Hm. now rewrite index_of_app_l.
  - apply mem_notin in Hm. rewrite index_of_app_r by assumption. lia.
Qed.

(** The names of the two layouts of the product. *)
Lemma layout_x xv yv shared :
  NoDup xv -> NoDup shared ->
  (forall v, In v shared <-> In v xv /\ In v yv) ->
  NoDup (setdiff1d xv yv ++ shared)
  /\ forall v, In v xv <-> In v (setdiff1d xv yv ++ shared).
Proof.
  intros Hx Hs Hsh. split.
  - apply NoDup_app; [now apply NoDup_setdiff1d | assumption |].
    intros v Hv Hv'. apply In_setdiff1d in Hv. apply Hsh in Hv'. tauto.
  - intros v. rewrite in_app_iff, In_setdiff1d, Hsh.
    destruct (mem v yv) eqn:Hm.
    + apply mem_In in Hm. tauto.
    + apply mem_notin in Hm. tauto.
Qed.

Lemma layout_y xv yv shared :
  NoDup yv -> NoDup shared ->
  (forall v, In v shared <-> In v xv /\ In v yv) ->
  NoDup (shared ++ setdiff1d yv xv)
  /\ forall v, In v yv <-> In v (shared ++ setdiff1d yv xv).
Proof.
  intros Hy Hs Hsh. split.
  - apply NoDup_app; [assumption | now apply NoDup_setdiff1d |].
    intros v Hv Hv'. apply In_setdiff1d in Hv'. apply Hsh in Hv. tauto.
  - intros v. rewrite in_app_iff, In_setdiff1d, Hsh.
    destruct (mem v xv) eqn:Hm.
    + apply mem_In in Hm. tauto.
    + apply mem_notin in Hm. tauto.
Qed.

(** Names and extents of the product, all three parts together. *)
Lemma card_map (f : string -> nat) vs v :
  In v vs -> card vs (map f vs) v = f v.
Proof.
  intros Hin. unfold card.
  rewrite (nth_map_in _ _ _ ""%string) by now apply index_of_lt.
  now rewrite nth_index_of.
Qed.

Lemma NoDup_layout xv yv shared :
  NoDup xv -> NoDup yv -> NoDup shared ->
  (forall v, In v shared <-> In v xv /\ In v yv) ->
  NoDup (setdiff1d xv yv ++ shared ++ setdiff1d yv xv).
Proof.
  intros Hx Hy Hs Hsh.
  apply NoDup_app; [now apply NoDup_setdiff1d | |].
  - now apply (layout_y xv yv shared).
  - intros v Hv Hv'. apply In_setdiff1d in Hv. destruct Hv as [_ Hv].
    apply in_app_iff in Hv'. destruct Hv' as [Hv'|Hv'].
    + apply Hsh in Hv'. apply Hv, Hv'.
    + apply In_setdiff1d in Hv'. apply Hv, Hv'.
Qed.

Lemma In_layout xv yv shared v :
  (forall v, In v shared <-> In v xv /\ In v yv) ->
  In v (setdiff1d xv yv ++ shared ++ setdiff1d yv xv)
  <-> In v xv \/ In v yv.
Proof.
  intros Hsh. rewrite !in_app_iff, !In_setdiff1d, Hsh.
  destruct (in_dec string_dec v xv); destruct (in_dec string_dec v yv);
    tauto.
Qed.


Section Properties.

(** The scalar type, as in the definitions. *)
Variable R : Type.
Variable zero : R.
Variable add : R -> R -> R.
Variable mul : R -> R -> R.

Local Abbreviation ndarray := (ndarray R).
Local Abbreviation factor := (factor R).
Local Abbreviation mk_ndarray := (mk_ndarray R).
Local Abbreviation mk_factor := (mk_factor R).
Local Abbreviation shape := (shape R).
Local Abbreviation data := (data R).
Local Abbreviation ndim := (ndim R).
Local Abbreviation get := (get R zero).
Local Abbreviation tabulate := (tabulate R).
Local Abbreviation transpose := (transpose R zero).
Local Abbreviation moveaxis := (moveaxis R zero).
Local Abbreviation getitem := (getitem R).
Local Abbreviation multiply := (multiply R zero mul).
Local Abbreviation sum_list := (sum_list R zero add).
Local Abbreviation sum_of := (sum_of R zero add).
Local Abbreviation addition_laws := (addition_laws R zero add).
Local Abbreviation np_sum := (np_sum R zero add).
Local Abbreviation take := (take R zero).
Local Abbreviation f_variables := (f_variables R).
Local Abbreviation f_distribution := (f_distribution R).
Local Abbreviation f_shape := (f_shape R).
Local Abbreviation factor_init := (factor_init R).
Local Abbreviation is_none := (is_none R).
Local Abbreviation get_variables := (get_variables R).
Local Abbreviation get_distribution := (get_distribution R).
Local Abbreviation get_shape := (get_shape R).
Local Abbreviation factor_product := (factor_product R zero mul).
Local Abbreviation factor_marginalization :=
  (factor_marginalization R zero add).
Local Abbreviation factor_reduction := (factor_reduction R zero).
Local Abbreviation check_none := (check_none R).
Local Abbreviation product_loop := (product_loop R zero mul).
Local Abbreviation joint_distribution := (joint_distribution R zero mul).
Local Abbreviation valid_factor := (valid_factor R).
Local Abbreviation left_fold_product := (left_fold_product R zero mul).
Local Abbreviation empty_factor := (empty_factor R).
Local Abbreviation tensor := (tensor R).
Local Abbreviation value := (value R zero).
Local Abbreviation cardinality := (cardinality R).
Local Abbreviation assignment := (assignment R).

(** ** Reading an array *)

Lemma get_tabulate sh f idx :
  in_range sh idx -> get (tabulate sh f) idx = f idx.
Proof.
  intros H. unfold get, tabulate. simpl.
  rewrite (nth_map_in _ _ _ idx)
    by (rewrite length_indices; now apply ravel_lt).
  now rewrite nth_indices.
Qed.


(** ** Sums that do not depend on the order of the terms *)

Lemma sum_of_sum_list (l : list R) : sum_of l (sum_list l).
Proof.
  induction l as [|a l IH]; simpl; [constructor|].
  change (a :: l) with ([a] ++ l).
  apply sum_of_app; [constructor | exact IH].
Qed.

Lemma sum_list_app (l1 l2 : list R) :
  addition_laws ->
  sum_list (l1 ++ l2) = add (sum_list l1) (sum_list l2).
Proof.
  intros (Hassoc & Hcomm & Hzero).
  induction l1 as [|a l1 IH]; simpl.
  - now rewrite Hcomm, Hzero.
  - now rewrite IH, Hassoc.
Qed.

Lemma sum_list_perm (l l' : list R) :
  addition_laws -> Permutation l l' -> sum_list l = sum_list l'.
Proof.
  intros (Hassoc & Hcomm & Hzero).
  induction 1 as [|a l l' Hp IH|a b l|l l' l'' H1 IH1 H2 IH2]; simpl.
  - reflexivity.
  - now rewrite IH.
  - now rewrite !Hassoc, (Hcomm b a).
  - now rewrite IH1.
Qed.

(** Under the laws of addition a list of terms has one sum. *)
Lemma sum_of_unique (l : list R) (s : R) :
  addition_laws -> sum_of l s -> s = sum_list l.
Proof.
  intros Hlaws Hs.
  induction Hs as [|a|l1 l2 a b H1 IH1 H2 IH2|l l' a Hp Hs IH].
  - reflexivity.
  - simpl. destruct Hlaws as (_ & _ & Hzero). now rewrite Hzero.
  - now rewrite sum_list_app, <- IH1, <- IH2.
  - rewrite IH. now apply sum_list_perm.
Qed.

(** ** Moving axes by name *)

(** Moving every axis of [a], named [vs], to the position of its name in
    [ws] is the transposition that reads, at position [k], the axis named
    [ws[k]]. *)
Lemma moveaxis_table (a : ndarray) (vs ws : list string) :
  NoDup vs -> NoDup ws -> (forall v, In v vs <-> In v ws) ->
  List.length vs = ndim a ->
  moveaxis a (arange (List.length vs))
           (map (fun v => Z.of_nat (index_of v ws)) vs)
  = Ok (transpose a (map (fun w => index_of w vs) ws)).
Proof.
  intros Hvs Hws Hsame Hlen.
  pose proof (same_names_length vs ws Hvs Hws Hsame) as Hlen2.
  assert (Hincl : incl vs ws) by (intros v Hv; now apply Hsame).
  unfold moveaxis, arange. rewrite <- Hlen.
  rewrite normalize_axis_tuple_nat
    by (try apply seq_NoDup; intros d Hd; apply in_seq in Hd; lia).
  rewrite <- (map_map (fun v => index_of v ws) Z.of_nat).
  assert (Hlt : forall d, In d (map (fun v => index_of v ws) vs) ->
                          d < List.length vs).
  { intros d Hd. apply in_map_iff in Hd. destruct Hd as [v [<- Hv]].
    rewrite Hlen2. apply index_of_lt. now apply Hincl. }
  rewrite normalize_axis_tuple_nat
    by (try assumption; now apply NoDup_map_index_of).
  simpl bind. rewrite length_seq, length_map, Nat.eqb_refl. simpl negb.
  cbv iota. rewrite filter_none_seq.
  rewrite sorted_combine
    by (try assumption; try apply length_map; now apply NoDup_map_index_of).
  rewrite (fold_insert_append _ _ 0 []) by reflexivity. simpl app.
  now rewrite order_of_table.
Qed.

Lemma shape_transpose (a : ndarray) (vs ws : list string) :
  shape (transpose a (map (fun w => index_of w vs) ws))
  = map (card vs (shape a)) ws.
Proof. unfold transpose, tabulate. simpl. now rewrite map_map. Qed.

Lemma get_transpose (a : ndarray) (vs ws : list string) env :
  NoDup vs -> NoDup ws -> (forall v, In v vs <-> In v ws) ->
  List.length vs = ndim a -> fits vs (shape a) env ->
  get (transpose a (map (fun w => index_of w vs) ws)) (map env ws)
  = get a (map env vs).
Proof.
  intros Hvs Hws Hsame Hlen Hfit.
  unfold transpose. rewrite get_tabulate.
  - f_equal. rewrite <- Hlen.
    rewrite <- (map_nth_seq env vs ""%string).
    apply map_ext_in. intros j Hj. apply in_seq in Hj.
    set (v := nth j vs ""%string).
    assert (Hv : In v vs) by (apply nth_In; lia).
    replace j with (index_of v vs) at 1
      by (apply index_of_nth; [assumption | lia]).
    rewrite index_ofn_map_index_of;
      [| intros z Hz; now apply Hsame | now apply Hsame].
    rewrite (nth_map_in _ _ _ ""%string)
      by (apply index_of_lt; now apply Hsame).
    f_equal. apply nth_index_of. now apply Hsame.
  - rewrite map_map. unfold in_range. apply Forall2_map_in.
    intros w Hw. apply Hfit. now apply Hsame.
Qed.

(** ** Views with added axes, and the broadcast product *)

Lemma getitem_trailing (a : ndarray) k :
  getitem a (repeat SliceAll (ndim a) ++ repeat NewAxis k)
  = Ok (mk_ndarray (shape a ++ repeat 1 k) (data a)).
Proof.
  unfold getitem, ndim. now rewrite getitem_shape_trailing.
Qed.

Lemma getitem_leading (a : ndarray) k :
  shape a <> [] ->
  getitem a (repeat NewAxis k ++ [SliceAll])
  = Ok (mk_ndarray (repeat 1 k ++ shape a) (data a)).
Proof.
  intros Hne. unfold getitem. now rewrite getitem_shape_leading.
Qed.

Lemma get_trailing sh (dat : list R) k idx :
  List.length idx = List.length sh ->
  get (mk_ndarray (sh ++ repeat 1 k) dat) (idx ++ repeat 0 k)
  = get (mk_ndarray sh dat) idx.
Proof.
  intros Hlen. unfold get. simpl.
  now rewrite ravel_app, size_ones, ravel_ones, Nat.mul_1_r, Nat.add_0_r.
Qed.

Lemma get_leading sh (dat : list R) k idx :
  get (mk_ndarray (repeat 1 k ++ sh) dat) (repeat 0 k ++ idx)
  = get (mk_ndarray sh dat) idx.
Proof.
  unfold get. simpl.
  rewrite ravel_app by now rewrite !repeat_length.
  now rewrite ravel_ones.
Qed.

Lemma eta_ndarray (a : ndarray) : mk_ndarray (shape a) (data a) = a.
Proof. now destruct a. Qed.

(** The product of a view [A ++ S ++ 1..1] and a view [1..1 ++ S ++ B]. *)
Lemma multiply_layout (A S B : list nat) (da db : list R) :
  exists c,
    multiply (mk_ndarray (A ++ S ++ repeat 1 (List.length B)) da)
             (mk_ndarray (repeat 1 (List.length A) ++ S ++ B) db) = Ok c
    /\ shape c = A ++ S ++ B
    /\ forall ia is_ ib,
        in_range A ia -> in_range S is_ -> in_range B ib ->
        get c (ia ++ is_ ++ ib)
        = mul (get (mk_ndarray (A ++ S) da) (ia ++ is_))
              (get (mk_ndarray (S ++ B) db) (is_ ++ ib)).
Proof.
  unfold multiply, broadcast_shapes. simpl shape.
  assert (HL : List.length (repeat 1 (List.length A) ++ S ++ B)
               = List.length (A ++ S ++ repeat 1 (List.length B)))
    by (rewrite !length_app, !repeat_length; lia).
  unfold pad_shape. rewrite HL, Nat.max_id, Nat.sub_diag. simpl app.
  rewrite broadcast_dims_layout. simpl bind.
  eexists. split; [reflexivity|]. split; [reflexivity|].
  intros ia is_ ib Ha Hs Hb.
  pose proof (in_range_length _ _ Ha) as La.
  pose proof (in_range_length _ _ Hs) as Ls.
  pose proof (in_range_length _ _ Hb) as Lb.
  rewrite get_tabulate by (repeat apply in_range_app; assumption).
  unfold broadcast_index. simpl shape.
  replace (List.length (ia ++ is_ ++ ib)
           - List.length (A ++ S ++ repeat 1 (List.length B)))
    with 0 by (rewrite !length_app, !repeat_length; lia).
  replace (List.length (ia ++ is_ ++ ib)
           - List.length (repeat 1 (List.length A) ++ S ++ B))
    with 0 by (rewrite !length_app, !repeat_length; lia).
  simpl skipn.
  rewrite !combine_app, !map_app by (rewrite ?repeat_length; lia).
  rewrite !broadcast_ones by lia.
  rewrite (broadcast_keep A ia), (broadcast_keep B ib), !(broadcast_keep S is_)
    by assumption.
  f_equal.
  - rewrite (app_assoc ia), (app_assoc A).
    apply get_trailing. rewrite !length_app. lia.
  - apply get_leading.
Qed.


(** ** Valid and empty factors *)

Lemma valid_factor_fields (x : factor) :
  valid_factor x ->
  NoDup (f_variables x)
  /\ f_distribution x = Some (tensor x)
  /\ f_shape x = Some (shape (tensor x))
  /\ List.length (f_variables x) = List.length (shape (tensor x))
  /\ is_none x = false.
Proof.
  intros [vs [d [Hinit Hnd]]]. unfold factor_init in Hinit.
  destruct (Nat.eqb_spec (List.length vs) (List.length (shape d)))
    as [Hlen|Hlen]; simpl in Hinit; [|discriminate].
  inversion Hinit; subst x. unfold tensor, is_none. simpl. auto.
Qed.

Lemma empty_factor_is_none (e : factor) : empty_factor e -> is_none e = true.
Proof.
  intros [vs Hinit]. unfold factor_init in Hinit.
  inversion Hinit; subst e. reflexivity.
Qed.

Lemma factor_init_ok vs (d : ndarray) :
  List.length vs = List.length (shape d) ->
  factor_init (Some vs) (Some d) = Ok (mk_factor vs (Some d) (Some (shape d))).
Proof.
  intros Hlen. unfold factor_init. now rewrite Hlen, Nat.eqb_refl.
Qed.

Lemma in_range_cards vs sh sub env :
  incl sub vs -> fits vs sh env ->
  in_range (map (card vs sh) sub) (map env sub).
Proof.
  intros Hincl Hfit. unfold in_range. apply Forall2_map_in.
  intros v Hv. apply Hfit. now apply Hincl.
Qed.

(** What [factor_product] returns on two valid factors that share a
    variable and agree on the cardinality of the variables they share:
    the factor, the extents of its tensor and its entries. *)
Lemma factor_product_full (x y : factor) :
  valid_factor x -> valid_factor y ->
  filter (fun v => mem v (f_variables y)) (unique (f_variables x)) <> [] ->
  (forall v, In v (f_variables x) -> In v (f_variables y) ->
             cardinality x v = cardinality y v) ->
  exists d,
    factor_product x y
    = Ok (mk_factor (setdiff1d (f_variables x) (f_variables y)
                     ++ filter (fun v => mem v (f_variables y))
                               (unique (f_variables x))
                     ++ setdiff1d (f_variables y) (f_variables x))
                    (Some d) (Some (shape d)))
    /\ shape d
       = map (cardinality x) (setdiff1d (f_variables x) (f_variables y))
         ++ map (cardinality x)
                (filter (fun v => mem v (f_variables y))
                        (unique (f_variables x)))
         ++ map (cardinality y) (setdiff1d (f_variables y) (f_variables x))
    /\ forall env, assignment x env -> assignment y env ->
         get d (map env (setdiff1d (f_variables x) (f_variables y)
                         ++ filter (fun v => mem v (f_variables y))
                                   (unique (f_variables x))
                         ++ setdiff1d (f_variables y) (f_variables x)))
         = mul (value x env) (value y env).
Proof.
  intros Hx Hy Hne Hcard.
  destruct (valid_factor_fields x Hx) as (Hxnd & Hxd & Hxs & Hxl & Hxn).
  destruct (valid_factor_fields y Hy) as (Hynd & Hyd & Hys & Hyl & Hyn).
  unfold value, cardinality, assignment in *.
  set (xv := f_variables x) in *. set (yv := f_variables y) in *.
  set (dx := tensor x) in *. set (dy := tensor y) in *.
  set (shared := filter (fun v => mem v yv) (unique xv)) in *.
  set (x_only := setdiff1d xv yv). set (y_only := setdiff1d yv xv).
  assert (Hsh : forall v, In v shared <-> In v xv /\ In v yv)
    by (intros v; apply In_shared).
  assert (Hsnd : NoDup shared) by (apply sorted_NoDup, sorted_shared).
  destruct (layout_x xv yv shared Hxnd Hsnd Hsh) as [Hlx1 Hlx2].
  destruct (layout_y xv yv shared Hynd Hsnd Hsh) as [Hly1 Hly2].
  fold x_only in Hlx1, Hlx2. fold y_only in Hly1, Hly2.
  assert (Hix : incl shared xv) by (intros v Hv; now apply Hsh).
  assert (Hiy : incl shared yv) by (intros v Hv; now apply Hsh).
  assert (Hcs : map (card xv (shape dx)) shared
                = map (card yv (shape dy)) shared).
  { apply map_ext_in. intros v Hv. apply Hsh in Hv. now apply Hcard. }
  unfold factor_product.
  rewrite Hxn, Hyn. simpl orb. cbv iota.
  unfold get_variables, get_shape, get_distribution, intersect1d.
  fold xv yv shared. cbv zeta. cbv iota beta.
  destruct (Nat.eqb_spec (List.length shared) 0) as [Hz|_].
  { destruct shared; [congruence | discriminate]. }
  rewrite Hxs, Hys, Hxd, Hyd. cbn [the]. cbn [bind].
  rewrite (fancy_cards xv), (fancy_cards yv) by assumption. cbn [bind].
  rewrite Hcs, np_all_array_eq. simpl negb. cbv iota.
  rewrite (x_table xv yv shared), (y_table xv yv shared) by assumption.
  rewrite !length_map. fold x_only y_only.
  rewrite (moveaxis_table dx xv (x_only ++ shared)) by assumption.
  rewrite (moveaxis_table dy yv (shared ++ y_only)) by assumption.
  cbn [bind].
  set (tx := transpose dx (map (fun w => index_of w xv) (x_only ++ shared))).
  set (ty := transpose dy (map (fun w => index_of w yv) (shared ++ y_only))).
  assert (Hsx : shape tx = map (card xv (shape dx)) x_only
                           ++ map (card xv (shape dx)) shared)
    by (unfold tx; now rewrite shape_transpose, map_app).
  assert (Hsy : shape ty = map (card xv (shape dx)) shared
                           ++ map (card yv (shape dy)) y_only)
    by (unfold ty; now rewrite shape_transpose, map_app, Hcs).
  replace (List.length xv) with (ndim tx)
    by (unfold ndim; rewrite Hsx, <- map_app, length_map;
        symmetry; now apply same_names_length).
  rewrite getitem_trailing.
  rewrite getitem_leading
    by (rewrite Hsy; destruct shared; [congruence | discriminate]).
  cbn [bind]. rewrite Hsx, Hsy, <- app_assoc.
  replace (List.length y_only)
    with (List.length (map (card yv (shape dy)) y_only))
    by apply length_map.
  replace (List.length x_only)
    with (List.length (map (card xv (shape dx)) x_only))
    by apply length_map.
  destruct (multiply_layout (map (card xv (shape dx)) x_only)
                            (map (card xv (shape dx)) shared)
                            (map (card yv (shape dy)) y_only)
                            (data tx) (data ty)) as (c & Hc & Hshape & Hget).
  rewrite Hc. cbn [bind].
  rewrite factor_init_ok
    by (rewrite Hshape, !length_app, !length_map; reflexivity).
  exists c. split; [reflexivity|]. split; [exact Hshape|].
  intros env Hex Hey. rewrite !map_app.
  rewrite Hget.
  - rewrite <- Hsx, <- Hsy, !eta_ndarray, <- !map_app.
    unfold tx, ty. f_equal; apply get_transpose; assumption.
  - apply in_range_cards; [|assumption].
    intros v Hv. apply In_setdiff1d in Hv. apply Hv.
  - now apply in_range_cards.
  - apply in_range_cards; [|assumption].
    intros v Hv. apply In_setdiff1d in Hv. apply Hv.
Qed.

(** What [factor_product] returns on two valid factors that share a
    variable and agree on the cardinality of the variables they share. *)
Lemma factor_product_layout (x y : factor) :
  valid_factor x -> valid_factor y ->
  filter (fun v => mem v (f_variables y)) (unique (f_variables x)) <> [] ->
  (forall v, In v (f_variables x) -> In v (f_variables y) ->
             cardinality x v = cardinality y v) ->
  exists d,
    factor_product x y
    = Ok (mk_factor (setdiff1d (f_variables x) (f_variables y)
                     ++ filter (fun v => mem v (f_variables y))
                               (unique (f_variables x))
                     ++ setdiff1d (f_variables y) (f_variables x))
                    (Some d) (Some (shape d)))
    /\ forall env, assignment x env -> assignment y env ->
         get d (map env (setdiff1d (f_variables x) (f_variables y)
                         ++ filter (fun v => mem v (f_variables y))
                                   (unique (f_variables x))
                         ++ setdiff1d (f_variables y) (f_variables x)))
         = mul (value x env) (value y env).
Proof.
  intros Hx Hy Hne Hcard.
  destruct (factor_product_full x y Hx Hy Hne Hcard) as (d & Hp & _ & Hv).
  exists d. split; assumption.
Qed.


(** ** Axes selected by a mask over the names *)

Lemma where_from_ge i mask j : In j (where_from i mask) -> i <= j.
Proof.
  revert i. induction mask as [|b mask IH]; intros i; simpl; [contradiction|].
  destruct b; simpl; intros H.
  - destruct H as [<-|H]; [lia|]. apply IH in H. lia.
  - apply IH in H. lia.
Qed.

Lemma where_from_lt i mask j :
  In j (where_from i mask) -> j < i + List.length mask.
Proof.
  revert i. induction mask as [|b mask IH]; intros i; simpl; [contradiction|].
  destruct b; simpl; intros H.
  - destruct H as [<-|H]; [lia|]. apply IH in H. lia.
  - apply IH in H. lia.
Qed.

Lemma where_from_NoDup i mask : NoDup (where_from i mask).
Proof.
  revert i. induction mask as [|b mask IH]; intros i; simpl; [constructor|].
  destruct b; [|apply IH]. constructor; [|apply IH].
  intros H. apply where_from_ge in H. lia.
Qed.

Lemma memn_where_from_head i mask : memn i (where_from (S i) mask) = false.
Proof.
  apply memn_notin. intros H. apply where_from_ge in H. lia.
Qed.

Lemma merge_from_ext i n axes axes' js ks :
  (forall j, i <= j -> memn j axes = memn j axes') ->
  merge_from i n axes js ks = merge_from i n axes' js ks.
Proof.
  revert i js ks. induction n as [|n IH]; intros i js ks H; simpl;
    [reflexivity|].
  rewrite (H i) by lia.
  destruct (memn i axes'); f_equal; apply IH; intros j Hj; apply H; lia.
Qed.

Lemma drop_axes_ext {A : Type} i axes axes' (l : list A) :
  (forall j, i <= j -> memn j axes = memn j axes') ->
  drop_axes_from i axes l = drop_axes_from i axes' l.
Proof.
  revert i. induction l as [|a l IH]; intros i H; simpl; [reflexivity|].
  rewrite (H i) by lia.
  destruct (memn i axes'); [|f_equal]; apply IH; intros j Hj; apply H; lia.
Qed.

Lemma keep_axes_ext {A : Type} i axes axes' (l : list A) :
  (forall j, i <= j -> memn j axes = memn j axes') ->
  keep_axes_from i axes l = keep_axes_from i axes' l.
Proof.
  revert i. induction l as [|a l IH]; intros i H; simpl; [reflexivity|].
  rewrite (H i) by lia.
  destruct (memn i axes'); [f_equal|]; apply IH; intros j Hj; apply H; lia.
Qed.

Lemma memn_cons_above i j axes : i < j -> memn j (i :: axes) = memn j axes.
Proof.
  intros Hij. unfold memn. simpl.
  destruct (Nat.eqb_spec j i); [lia | reflexivity].
Qed.

Lemma memn_head i axes : memn i (i :: axes) = true.
Proof. unfold memn. simpl. now rewrite Nat.eqb_refl. Qed.

(** Over the axes where [P] holds of the name: what is dropped, what is
    kept, and how a full index is put together. *)
Lemma drop_where {A : Type} (P : string -> bool) (f : string -> A) vs i :
  drop_axes_from i (where_from i (map P vs)) (map f vs)
  = map f (filter (fun v => negb (P v)) vs).
Proof.
  revert i. induction vs as [|a vs IH]; intros i; [reflexivity|].
  cbn [map filter where_from List.length].
  destruct (P a); cbn [negb drop_axes_from keep_axes_from merge_from map hd tl].
  - rewrite memn_head.
    rewrite (drop_axes_ext (S i) _ (where_from (S i) (map P vs)))
      by (intros j Hj; apply memn_cons_above; lia).
    apply IH.
  - rewrite memn_where_from_head. f_equal. apply IH.
Qed.

Lemma keep_where {A : Type} (P : string -> bool) (f : string -> A) vs i :
  keep_axes_from i (where_from i (map P vs)) (map f vs)
  = map f (filter P vs).
Proof.
  revert i. induction vs as [|a vs IH]; intros i; [reflexivity|].
  cbn [map filter where_from List.length].
  destruct (P a); cbn [negb drop_axes_from keep_axes_from merge_from map hd tl].
  - rewrite memn_head. f_equal.
    rewrite (keep_axes_ext (S i) _ (where_from (S i) (map P vs)))
      by (intros j Hj; apply memn_cons_above; lia).
    apply IH.
  - rewrite memn_where_from_head. apply IH.
Qed.

Lemma merge_where (P : string -> bool) (env kenv : string -> nat) vs i :
  merge_from i (List.length vs) (where_from i (map P vs))
             (map env (filter (fun v => negb (P v)) vs))
             (map kenv (filter P vs))
  = map (fun v => if P v then kenv v else env v) vs.
Proof.
  revert i. induction vs as [|a vs IH]; intros i; [reflexivity|].
  cbn [map filter where_from List.length].
  destruct (P a); cbn [negb drop_axes_from keep_axes_from merge_from map hd tl].
  - rewrite memn_head. f_equal.
    rewrite (merge_from_ext (S i) _ _ (where_from (S i) (map P vs)))
      by (intros j Hj; apply memn_cons_above; lia).
    apply IH.
  - rewrite memn_where_from_head. f_equal. apply IH.
Qed.

Lemma shape_cards vs sh :
  NoDup vs -> List.length vs = List.length sh -> map (card vs sh) vs = sh.
Proof.
  intros Hnd Hlen. unfold card.
  apply (nth_ext _ _ 0 0); [now rewrite length_map|].
  intros i Hi. rewrite length_map in Hi.
  rewrite (nth_map_in _ _ _ ""%string) by assumption.
  now rewrite index_of_nth.
Qed.

Lemma map_rank_nth (l : list string) (ks : list nat) :
  NoDup l -> List.length ks = List.length l ->
  map (fun v => nth (index_of v l) ks 0) l = ks.
Proof. intros Hnd Hlen. apply shape_cards; [assumption | now symmetry]. Qed.

Lemma where_forallb_lt mask n :
  List.length mask = n ->
  forallb (fun ax => ax <? n) (where_ mask) = true.
Proof.
  intros <-. apply forallb_forall. intros j Hj. apply where_from_lt in Hj.
  apply Nat.ltb_lt. lia.
Qed.

Lemma where_nodupb mask : nodupb (where_ mask) = true.
Proof. apply nodupb_NoDup, where_from_NoDup. Qed.


(** ** Summing and slicing by name *)

Lemma np_sum_names (a : ndarray) vs (P : string -> bool) :
  NoDup vs -> List.length vs = ndim a ->
  exists c,
    np_sum a (where_ (map P vs)) = Ok c
    /\ shape c = map (card vs (shape a)) (filter (fun v => negb (P v)) vs)
    /\ forall env,
        (forall v, In v vs -> P v = false -> env v < card vs (shape a) v) ->
        get c (map env (filter (fun v => negb (P v)) vs))
        = sum_list
            (map (fun ks =>
                    get a (map (fun v =>
                                  if P v
                                  then nth (index_of v (filter P vs)) ks 0
                                  else env v) vs))
                 (indices (map (card vs (shape a)) (filter P vs)))).
Proof.
  intros Hnd Hlen. unfold np_sum.
  rewrite where_forallb_lt, where_nodupb by now rewrite length_map.
  cbn [negb].
  assert (Hdrop : drop_axes_from 0 (where_ (map P vs)) (shape a)
                  = map (card vs (shape a))
                        (filter (fun v => negb (P v)) vs)).
  { rewrite <- (shape_cards vs (shape a)) at 1 by assumption.
    apply drop_where. }
  assert (Hkeep : keep_axes_from 0 (where_ (map P vs)) (shape a)
                  = map (card vs (shape a)) (filter P vs)).
  { rewrite <- (shape_cards vs (shape a)) at 1 by assumption.
    apply keep_where. }
  rewrite Hdrop, Hkeep.
  eexists. split; [reflexivity|]. split; [reflexivity|].
  intros env Henv. rewrite get_tabulate.
  - f_equal. apply map_ext_in. intros ks Hks.
    apply In_indices, in_range_length in Hks. rewrite length_map in Hks.
    f_equal. rewrite <- Hlen.
    rewrite <- (map_rank_nth (filter P vs) ks) at 1
      by (try assumption; now apply NoDup_filter).
    apply merge_where.
  - unfold in_range. apply Forall2_map_in. intros v Hv.
    apply filter_In in Hv. destruct Hv as [Hv HP].
    apply Henv; [assumption|]. now apply negb_true_iff.
Qed.

Lemma where_from_none i (v : string) vs :
  ~ In v vs -> where_from i (map (String.eqb v) vs) = [].
Proof.
  revert i. induction vs as [|a vs IH]; intros i Hnin; simpl; [reflexivity|].
  destruct (String.eqb_spec v a) as [->|_].
  - exfalso. apply Hnin. now left.
  - apply IH. intros H. apply Hnin. now right.
Qed.

Lemma where_eq_scalar (v : string) vs :
  NoDup vs -> In v vs -> where_ (eq_scalar v vs) = [index_of v vs].
Proof.
  unfold where_, eq_scalar. intros Hnd.
  assert (H : forall i, In v vs ->
                        where_from i (map (String.eqb v) vs)
                        = [i + index_of v vs]).
  { induction Hnd as [|a vs Ha Hnd IH]; intros i Hin; simpl;
      [contradiction|].
    rewrite (String.eqb_sym a v).
    destruct (String.eqb_spec v a) as [->|Hne].
    - rewrite where_from_none by assumption. f_equal. lia.
    - destruct Hin as [->|Hin]; [congruence|].
      rewrite IH by assumption. f_equal. lia. }
  intros Hin. now rewrite H.
Qed.

Lemma filter_eqb_single (v : string) vs :
  NoDup vs -> In v vs -> filter (String.eqb v) vs = [v].
Proof.
  intros Hnd. induction Hnd as [|a vs Ha Hnd IH]; intros Hin; simpl;
    [contradiction|].
  destruct (String.eqb_spec v a) as [->|Hne].
  - f_equal. clear IH Hin Hnd. induction vs as [|b vs IH]; simpl;
      [reflexivity|].
    destruct (String.eqb_spec a b) as [->|_].
    + exfalso. apply Ha. now left.
    + apply IH. intros H. apply Ha. now right.
  - destruct Hin as [->|Hin]; [congruence | now apply IH].
Qed.

Lemma take_names (a : ndarray) vs (v : string) (value : Z) :
  NoDup vs -> List.length vs = ndim a -> In v vs ->
  (- Z.of_nat (card vs (shape a) v) <= value
   < Z.of_nat (card vs (shape a) v))%Z ->
  exists c,
    take a value (index_of v vs) = Ok c
    /\ shape c
       = map (card vs (shape a))
             (filter (fun w => negb (String.eqb v w)) vs)
    /\ forall env,
        (forall w, In w vs -> String.eqb v w = false ->
                   env w < card vs (shape a) w) ->
        get c (map env (filter (fun w => negb (String.eqb v w)) vs))
        = get a (map (fun w =>
                        if String.eqb v w
                        then Z.to_nat
                               (if (value <? 0)%Z
                                then value + Z.of_nat (card vs (shape a) v)
                                else value)%Z
                        else env w) vs).
Proof.
  intros Hnd Hlen Hin Hval. unfold take.
  assert (Hax : index_of v vs < List.length (shape a))
    by (unfold ndim in Hlen; rewrite <- Hlen; now apply index_of_lt).
  rewrite (nth_error_nth' _ 0 Hax). fold (card vs (shape a) v).
  set (c := card vs (shape a) v) in *.
  replace ((- Z.of_nat c <=? value)%Z) with true
    by (symmetry; apply Z.leb_le; lia).
  replace ((value <? Z.of_nat c)%Z) with true
    by (symmetry; apply Z.ltb_lt; lia).
  cbn [andb].
  set (pos := Z.to_nat (if (value <? 0)%Z then value + Z.of_nat c
                        else value)%Z).
  assert (Haxes : [index_of v vs] = where_from 0 (map (String.eqb v) vs))
    by (symmetry; now apply where_eq_scalar).
  rewrite Haxes.
  assert (Hdrop : drop_axes_from 0 (where_from 0 (map (String.eqb v) vs))
                                 (shape a)
                  = map (card vs (shape a))
                        (filter (fun w => negb (String.eqb v w)) vs)).
  { rewrite <- (shape_cards vs (shape a)) at 1 by assumption.
    apply drop_where. }
  rewrite Hdrop.
  eexists. split; [reflexivity|]. split; [reflexivity|].
  intros env Henv. rewrite get_tabulate.
  - f_equal. rewrite <- Hlen.
    replace [pos] with (map (fun _ : string => pos)
                            (filter (String.eqb v) vs))
      by now rewrite filter_eqb_single.
    apply merge_where.
  - unfold in_range. apply Forall2_map_in. intros w Hw.
    apply filter_In in Hw. destruct Hw as [Hw HP].
    apply Henv; [assumption|]. now apply negb_true_iff.
Qed.


Lemma valid_factor_intro vs (d : ndarray) :
  unique_names vs = true -> List.length vs = List.length (shape d) ->
  valid_factor (mk_factor vs (Some d) (Some (shape d))).
Proof.
  intros Hu Hlen. exists vs, d. split; [now apply factor_init_ok|].
  induction vs as [|v vs IH]; [constructor|].
  simpl in Hu. apply andb_true_iff in Hu. destruct Hu as [Hv Hu].
  constructor.
  - apply mem_notin. now apply negb_true_iff.
  - clear Hlen. revert Hu. clear. induction vs as [|w vs IH]; intros Hu;
      [constructor|].
    simpl in Hu. apply andb_true_iff in Hu. destruct Hu as [Hw Hu].
    constructor; [|now apply IH].
    apply mem_notin. now apply negb_true_iff.
Qed.

Lemma shared_nonempty xv yv :
  (exists v, In v xv /\ In v yv) ->
  filter (fun v => mem v yv) (unique xv) <> [].
Proof.
  intros [v Hv] Hnil. apply In_shared in Hv. rewrite Hnil in Hv.
  contradiction.
Qed.

Lemma shared_empty xv yv :
  (forall v, In v xv -> ~ In v yv) ->
  filter (fun v => mem v yv) (unique xv) = [].
Proof.
  intros Hdis. destruct (filter (fun v => mem v yv) (unique xv)) as [|v l] eqn:E;
    [reflexivity|].
  assert (Hv : In v (filter (fun v => mem v yv) (unique xv)))
    by (rewrite E; now left).
  apply In_shared in Hv. exfalso. now apply (Hdis v).
Qed.

(** The checks of [factor_product] up to the comparison of the
    cardinalities of the shared variables. *)
Lemma factor_product_checks (x y : factor) :
  valid_factor x -> valid_factor y ->
  (exists v, In v (f_variables x) /\ In v (f_variables y)) ->
  np_all (array_eq
            (map (cardinality x)
                 (filter (fun v => mem v (f_variables y))
                         (unique (f_variables x))))
            (map (cardinality y)
                 (filter (fun v => mem v (f_variables y))
                         (unique (f_variables x))))) = false ->
  factor_product x y
  = Raise (Exception "Common variables have different order").
Proof.
  intros Hx Hy Hex Hall.
  destruct (valid_factor_fields x Hx) as (Hxnd & Hxd & Hxs & Hxl & Hxn).
  destruct (valid_factor_fields y Hy) as (Hynd & Hyd & Hys & Hyl & Hyn).
  pose proof (shared_nonempty _ _ Hex) as Hne.
  assert (Hall' :
            np_all (array_eq
                      (map (card (f_variables x) (shape (tensor x)))
                           (filter (fun v => mem v (f_variables y))
                                   (unique (f_variables x))))
                      (map (card (f_variables y) (shape (tensor y)))
                           (filter (fun v => mem v (f_variables y))
                                   (unique (f_variables x))))) = false)
    by exact Hall.
  clear Hall. unfold factor_product.
  rewrite Hxn, Hyn. cbn [orb].
  unfold get_variables, get_shape, intersect1d. cbv zeta. cbv iota beta.
  destruct (Nat.eqb_spec
              (List.length (filter (fun v => mem v (f_variables y))
                                   (unique (f_variables x)))) 0) as [Hz|_].
  { destruct (filter (fun v => mem v (f_variables y))
                     (unique (f_variables x))); [congruence | discriminate]. }
  rewrite Hxs, Hys. cbn [the bind].
  rewrite (fancy_cards (f_variables x)), (fancy_cards (f_variables y));
    try assumption; try (intros v Hv; apply In_shared in Hv; apply Hv).
  cbn [bind]. now rewrite Hall'.
Qed.


(** ** The loops of [joint_distribution] *)

Lemma check_none_ok (ar : list factor) :
  Forall (fun f => is_none f = false) ar -> check_none ar = Ok tt.
Proof.
  induction 1 as [|f ar Hf H IH]; simpl; [reflexivity|]. now rewrite Hf.
Qed.

Lemma check_none_raises (ar : list factor) (e : factor) :
  In e ar -> is_none e = true ->
  check_none ar = Raise (Exception "Factor is None").
Proof.
  intros Hin He. induction ar as [|f ar IH]; simpl; [contradiction|].
  destruct (is_none f) eqn:Hf; [reflexivity|].
  destruct Hin as [->|Hin]; [congruence | now apply IH].
Qed.

Lemma fold_product_raise (rest : list factor) (e : exn) :
  fold_left (fun acc f => res <- acc ;; factor_product res f) rest (Raise e)
  = Raise e.
Proof. induction rest as [|f rest IH]; simpl; [reflexivity | exact IH]. Qed.

Lemma product_loop_fold (rest : list factor) (acc : factor) :
  product_loop acc rest = left_fold_product acc rest.
Proof.
  unfold left_fold_product. revert acc.
  induction rest as [|f rest IH]; intros acc; simpl; [reflexivity|].
  destruct (factor_product acc f) as [r|e]; simpl.
  - apply IH.
  - now rewrite fold_product_raise.
Qed.

Lemma left_fold_product_app (f1 : factor) (pre post : list factor) :
  left_fold_product f1 (pre ++ post)
  = (acc <- left_fold_product f1 pre ;; left_fold_product acc post).
Proof.
  unfold left_fold_product. rewrite fold_left_app.
  destruct (fold_left _ pre (Ok f1)) as [acc|e]; simpl; [reflexivity|].
  apply fold_product_raise.
Qed.

(** * The properties of the specification *)

(** C1.  For two valid factors [x] and [y] that share a variable and agree
    on the cardinality of every variable they share, [factor_product x y]
    returns a factor [r] with the value decomposition: at every joint
    assignment [env] of the variables of [x] and [y], the entry of [r] is
    the entry of [x] times the entry of [y]. *)
Theorem factor_product_value_decomposition (x y : factor) :
  valid_factor x -> valid_factor y ->
  (exists v, In v (f_variables x) /\ In v (f_variables y)) ->
  (forall v, In v (f_variables x) -> In v (f_variables y) ->
             cardinality x v = cardinality y v) ->
  exists r,
    factor_product x y = Ok r
    /\ forall env, assignment x env -> assignment y env ->
         value r env = mul (value x env) (value y env).
Proof.
  intros Hx Hy Hex Hcard.
  destruct (factor_product_layout x y Hx Hy (shared_nonempty _ _ Hex) Hcard)
    as (d & Hprod & Hval).
  eexists. split; [exact Hprod|]. exact Hval.
Qed.

(** C2.  Under the same conditions the variables of [factor_product x y]
    are [x_only ++ shared ++ y_only]: the variables of [x] that are not in
    [y], in the order of [x]; then the shared variables, in increasing
    order of their names; then the variables of [y] that are not in [x],
    in the order of [y]. *)
Theorem factor_product_variables (x y : factor) :
  valid_factor x -> valid_factor y ->
  (exists v, In v (f_variables x) /\ In v (f_variables y)) ->
  (forall v, In v (f_variables x) -> In v (f_variables y) ->
             cardinality x v = cardinality y v) ->
  exists r shared,
    factor_product x y = Ok r
    /\ f_variables r
       = filter (fun v => negb (mem v (f_variables y))) (f_variables x)
         ++ shared
         ++ filter (fun v => negb (mem v (f_variables x))) (f_variables y)
    /\ StronglySorted str_lt shared
    /\ forall v, In v shared <-> In v (f_variables x) /\ In v (f_variables y).
Proof.
  intros Hx Hy Hex Hcard.
  destruct (factor_product_layout x y Hx Hy (shared_nonempty _ _ Hex) Hcard)
    as (d & Hprod & _).
  eexists. eexists. split; [exact Hprod|]. simpl.
  rewrite !setdiff1d_filter. split; [reflexivity|].
  split; [apply sorted_shared | intros v; apply In_shared].
Qed.

(** C5.  An empty factor is rejected by every operation with an exception
    of the notebook's own: the product in either position, the
    marginalization over any variables, the reduction on any variable and
    value, and the joint distribution of any sequence that holds it. *)
Theorem empty_factor_rejected (e : factor) :
  empty_factor e ->
  (forall y, InvalidArgument (factor_product e y)
             /\ InvalidArgument (factor_product y e))
  /\ (forall variables, InvalidArgument (factor_marginalization e variables))
  /\ (forall variable value,
         InvalidArgument (factor_reduction e variable value))
  /\ (forall ar, In e ar -> InvalidArgument (joint_distribution ar)).
Proof.
  intros He. apply empty_factor_is_none in He.
  repeat split.
  - unfold factor_product. rewrite He. simpl. now eexists.
  - unfold factor_product. rewrite He, orb_true_r. now eexists.
  - intros variables. unfold factor_marginalization. rewrite He. now eexists.
  - intros variable value. unfold factor_reduction. rewrite He.
    destruct variable, value; now eexists.
  - intros ar Hin. unfold joint_distribution.
    rewrite (check_none_raises ar e Hin He). simpl. now eexists.
Qed.

(** C6.  For two valid factors, [factor_product] raises its own exception
    when no variable is shared, raises its own exception when a shared
    variable has two cardinalities, and returns a factor otherwise. *)
Theorem factor_product_failures (x y : factor) :
  valid_factor x -> valid_factor y ->
  ((forall v, In v (f_variables x) -> ~ In v (f_variables y)) ->
   InvalidArgument (factor_product x y))
  /\ ((exists v, In v (f_variables x) /\ In v (f_variables y)
                 /\ cardinality x v <> cardinality y v) ->
      InvalidArgument (factor_product x y))
  /\ ((exists v, In v (f_variables x) /\ In v (f_variables y)) ->
      (forall v, In v (f_variables x) -> In v (f_variables y) ->
                 cardinality x v = cardinality y v) ->
      exists r, factor_product x y = Ok r).
Proof.
  intros Hx Hy. split; [|split].
  - intros Hdis.
    destruct (valid_factor_fields x Hx) as (_ & _ & _ & _ & Hxn).
    destruct (valid_factor_fields y Hy) as (_ & _ & _ & _ & Hyn).
    unfold factor_product. rewrite Hxn, Hyn. cbn [orb].
    unfold get_variables, intersect1d. cbv zeta. cbv iota beta.
    rewrite (shared_empty _ _ Hdis). simpl. now eexists.
  - intros (v & Hvx & Hvy & Hne).
    rewrite (factor_product_checks x y Hx Hy); [now eexists | now exists v |].
    destruct (np_all _) eqn:Hall; [|reflexivity].
    exfalso. apply Hne.
    apply np_all_array_eq_inv in Hall; [|now rewrite !length_map].
    assert (Hin : In v (filter (fun v => mem v (f_variables y))
                               (unique (f_variables x))))
      by (apply In_shared; now split).
    rewrite map_ext_in_iff in Hall. now apply Hall.
  - intros Hex Hcard.
    destruct (factor_product_layout x y Hx Hy (shared_nonempty _ _ Hex) Hcard)
      as (d & Hprod & _).
    eexists. exact Hprod.
Qed.

(** C7.  On a sequence [f1, rest...] of factors that hold a tensor,
    [joint_distribution] is the left fold of [factor_product]: [f1] itself
    when [rest] is empty, and the exception of the first product that
    fails otherwise, whatever follows it. *)
Theorem joint_distribution_left_fold (f1 : factor) (rest : list factor) :
  Forall (fun f => is_none f = false) (f1 :: rest) ->
  joint_distribution (f1 :: rest) = left_fold_product f1 rest
  /\ (rest = [] -> joint_distribution (f1 :: rest) = Ok f1)
  /\ (forall pre f post acc e,
         rest = pre ++ f :: post ->
         left_fold_product f1 pre = Ok acc ->
         factor_product acc f = Raise e ->
         joint_distribution (f1 :: rest) = Raise e).
Proof.
  intros Hall.
  assert (Hj : joint_distribution (f1 :: rest) = left_fold_product f1 rest).
  { unfold joint_distribution. rewrite (check_none_ok _ Hall). cbn [bind].
    apply product_loop_fold. }
  split; [exact Hj|]. split.
  - intros ->. rewrite Hj. reflexivity.
  - intros pre f post acc e -> Hpre Hfail.
    rewrite Hj, left_fold_product_app, Hpre. cbn [bind].
    unfold left_fold_product. simpl. rewrite Hfail.
    apply fold_product_raise.
Qed.

(** C8, as the code has it.  On a sequence of zero factors
    [joint_distribution] raises the [IndexError] of [ar[0]]; the function
    has no check of its own for the empty sequence. *)
Theorem joint_distribution_empty :
  joint_distribution [] = Raise IndexError.
Proof. reflexivity. Qed.


(** ** Marginalization and reduction *)

Lemma isin_mask ar1 ar2 : isin ar1 ar2 false = map (fun v => mem v ar2) ar1.
Proof.
  unfold isin. apply map_ext. intros v. now destruct (mem v ar2).
Qed.

Lemma np_all_in1d variables xv :
  incl variables xv -> np_all (in1d variables xv) = true.
Proof.
  intros Hincl. unfold np_all, in1d. rewrite isin_mask.
  apply forallb_forall. intros b Hb. apply in_map_iff in Hb.
  destruct Hb as [v [<- Hv]]. apply mem_In. now apply Hincl.
Qed.

Lemma np_any_eq_scalar v xv : In v xv -> np_any (eq_scalar v xv) = true.
Proof.
  intros Hin. unfold np_any, eq_scalar. apply existsb_exists.
  exists true. split; [|reflexivity].
  apply in_map_iff. exists v. split; [apply String.eqb_refl | assumption].
Qed.

Lemma setdiff1d_single xv v :
  setdiff1d xv [v] = filter (fun w => negb (String.eqb v w)) xv.
Proof.
  rewrite setdiff1d_filter. apply filter_ext. intros w.
  unfold mem. simpl. now rewrite orb_false_r, String.eqb_sym.
Qed.

(** What [factor_reduction] returns for a value index within the axis of
    the variable, counted from the start or, when negative, from the
    end. *)
Lemma factor_reduction_slice (x : factor) (v : string) (i : Z) :
  valid_factor x -> In v (f_variables x) ->
  (- Z.of_nat (cardinality x v) <= i < Z.of_nat (cardinality x v))%Z ->
  exists r,
    factor_reduction x (Some v) (Some i) = Ok r
    /\ f_variables r
       = filter (fun w => negb (String.eqb v w)) (f_variables x)
    /\ shape (tensor r) = map (cardinality x) (f_variables r)
    /\ forall env,
        (forall w, In w (f_variables r) -> env w < cardinality x w) ->
        value r env
        = value x (updated env v
                     (Z.to_nat (if (i <? 0)%Z
                                then i + Z.of_nat (cardinality x v)
                                else i)%Z)).
Proof.
  intros Hx Hin Hi.
  destruct (valid_factor_fields x Hx) as (Hxnd & Hxd & Hxs & Hxl & Hxn).
  unfold value, cardinality in *.
  set (xv := f_variables x) in *. set (dx := tensor x) in *.
  destruct (take_names dx xv v i Hxnd Hxl Hin Hi) as (c & Htake & Hshape & Hget).
  unfold factor_reduction. rewrite Hxn.
  unfold get_variables, get_shape, get_distribution. fold xv.
  rewrite np_any_eq_scalar by assumption. cbn [negb].
  rewrite Hxs, Hxd. cbn [the bind].
  rewrite where_eq_scalar by assumption.
  change [index_of v xv] with (map (fun w => index_of w xv) [v]).
  rewrite (fancy_cards xv)
    by (try assumption; intros w [<-|[]]; assumption).
  cbn [bind map truth int_of].
  replace ((Z.of_nat (card xv (shape dx) v) <=? i)%Z) with false
    by (symmetry; apply Z.leb_gt; lia).
  rewrite Htake. cbn [bind]. rewrite setdiff1d_single.
  rewrite factor_init_ok by now rewrite Hshape, length_map.
  eexists. split; [reflexivity|]. simpl.
  split; [reflexivity|]. split; [exact Hshape|].
  intros env Henv. rewrite Hget.
  - f_equal. apply map_ext. intros w. unfold updated.
    now rewrite String.eqb_sym.
  - intros w Hw Hne. apply Henv. apply filter_In. split; [assumption|].
    now rewrite Hne.
Qed.

(** C4.  For a valid factor [x], a variable [v] of [x] and a value index
    [0 <= i < cardinality x v], [factor_reduction] returns the factor over
    the other variables of [x], in the order of [x], each with the
    cardinality it has in [x]; its entry at an assignment of these
    variables is the entry of [x] at that assignment with [v] at [i]: a
    slice, without any sum. *)
Theorem factor_reduction_is_slice (x : factor) (v : string) (i : Z) :
  valid_factor x -> In v (f_variables x) ->
  (0 <= i < Z.of_nat (cardinality x v))%Z ->
  exists r,
    factor_reduction x (Some v) (Some i) = Ok r
    /\ f_variables r
       = filter (fun w => negb (String.eqb v w)) (f_variables x)
    /\ shape (tensor r) = map (cardinality x) (f_variables r)
    /\ forall env,
        (forall w, In w (f_variables r) -> env w < cardinality x w) ->
        value r env = value x (updated env v (Z.to_nat i)).
Proof.
  intros Hx Hin Hi.
  destruct (factor_reduction_slice x v i Hx Hin) as (r & Hr & Hv & Hs & Hg);
    [lia|].
  exists r. repeat (split; [assumption|]).
  intros env Henv. rewrite Hg by assumption.
  replace ((i <? 0)%Z) with false by (symmetry; apply Z.ltb_ge; lia).
  reflexivity.
Qed.

(** C10.  For a valid factor [x], a variable [v] of [x] of cardinality [c]
    and a negative value index [-c <= i < 0], [factor_reduction] does not
    fail: it returns the slice of [x] at position [c + i] of the axis of
    [v]. *)
Theorem factor_reduction_negative_index (x : factor) (v : string) (i : Z) :
  valid_factor x -> In v (f_variables x) ->
  (- Z.of_nat (cardinality x v) <= i < 0)%Z ->
  exists r,
    factor_reduction x (Some v) (Some i) = Ok r
    /\ f_variables r
       = filter (fun w => negb (String.eqb v w)) (f_variables x)
    /\ shape (tensor r) = map (cardinality x) (f_variables r)
    /\ forall env,
        (forall w, In w (f_variables r) -> env w < cardinality x w) ->
        value r env
        = value x (updated env v
                     (Z.to_nat (Z.of_nat (cardinality x v) + i))).
Proof.
  intros Hx Hin Hi.
  destruct (factor_reduction_slice x v i Hx Hin) as (r & Hr & Hv & Hs & Hg);
    [lia|].
  exists r. repeat (split; [assumption|]).
  intros env Henv. rewrite Hg by assumption.
  replace ((i <? 0)%Z) with true by (symmetry; apply Z.ltb_lt; lia).
  now rewrite Z.add_comm.
Qed.


(** * Further properties of the operations *)

(** ** What a successful operation was given and what it built *)

Lemma bind_ok {A B : Type} (m : result A) (k : A -> result B) (b : B) :
  bind m k = Ok b -> exists a, m = Ok a /\ k a = Ok b.
Proof.
  destruct m as [a|e]; simpl; intros H; [|discriminate].
  exists a. now split.
Qed.

Lemma factor_init_built vs (d : ndarray) (x : factor) :
  factor_init (Some vs) (Some d) = Ok x ->
  x = mk_factor vs (Some d) (Some (shape d))
  /\ List.length vs = List.length (shape d).
Proof.
  unfold factor_init.
  destruct (Nat.eqb_spec (List.length vs) (List.length (shape d)))
    as [Hlen|Hlen]; simpl; intros H; [|discriminate].
  inversion H. now split.
Qed.

(** A product that succeeds was given factors that share a variable and
    agree on the cardinality of every variable they share. *)
Lemma factor_product_inv (x y r : factor) :
  valid_factor x -> valid_factor y -> factor_product x y = Ok r ->
  filter (fun v => mem v (f_variables y)) (unique (f_variables x)) <> []
  /\ forall v, In v (f_variables x) -> In v (f_variables y) ->
               cardinality x v = cardinality y v.
Proof.
  intros Hx Hy Hr.
  destruct (valid_factor_fields x Hx) as (_ & _ & _ & _ & Hxn).
  destruct (valid_factor_fields y Hy) as (_ & _ & _ & _ & Hyn).
  assert (Hne : filter (fun v => mem v (f_variables y))
                       (unique (f_variables x)) <> []).
  { intros Hnil. revert Hr. unfold factor_product.
    rewrite Hxn, Hyn. cbn [orb].
    unfold get_variables, intersect1d. cbv zeta. cbv iota beta.
    rewrite Hnil. simpl. discriminate. }
  split; [exact Hne|].
  intros v Hvx Hvy.
  assert (Hex : exists v, In v (f_variables x) /\ In v (f_variables y))
    by (exists v; now split).
  destruct (np_all (array_eq
                      (map (cardinality x)
                           (filter (fun v => mem v (f_variables y))
                                   (unique (f_variables x))))
                      (map (cardinality y)
                           (filter (fun v => mem v (f_variables y))
                                   (unique (f_variables x)))))) eqn:Hall.
  - apply np_all_array_eq_inv in Hall; [|now rewrite !length_map].
    rewrite map_ext_in_iff in Hall. apply Hall. apply In_shared. now split.
  - rewrite (factor_product_checks x y Hx Hy Hex Hall) in Hr. discriminate.
Qed.


(** A product of valid factors that succeeds: the factor it returns. *)
Lemma factor_product_ok (x y r : factor) :
  valid_factor x -> valid_factor y -> factor_product x y = Ok r ->
  valid_factor r
  /\ (forall v, In v (f_variables r)
                <-> In v (f_variables x) \/ In v (f_variables y))
  /\ (forall v, In v (f_variables x) -> cardinality r v = cardinality x v)
  /\ (forall v, In v (f_variables y) -> cardinality r v = cardinality y v)
  /\ (forall env, assignment x env -> assignment y env ->
                  assignment r env
                  /\ value r env = mul (value x env) (value y env)).
Proof.
  intros Hx Hy Hr.
  destruct (factor_product_inv x y r Hx Hy Hr) as [Hne Hcard].
  destruct (factor_product_full x y Hx Hy Hne Hcard)
    as (d & Hp & Hshape & Hval).
  rewrite Hp in Hr. inversion Hr as [Hr']. clear Hr Hp. subst r.
  destruct (valid_factor_fields x Hx) as (Hxnd & _).
  destruct (valid_factor_fields y Hy) as (Hynd & _).
  set (xv := f_variables x) in *. set (yv := f_variables y) in *.
  set (shared := filter (fun v => mem v yv) (unique xv)) in *.
  set (V := setdiff1d xv yv ++ shared ++ setdiff1d yv xv) in *.
  assert (Hsh : forall v, In v shared <-> In v xv /\ In v yv)
    by (intros v; apply In_shared).
  assert (HV : forall v, In v V <-> In v xv \/ In v yv)
    by (intros v; now apply In_layout).
  assert (Hcr : shape d
                = map (fun v => if mem v xv then cardinality x v
                                else cardinality y v) V).
  { rewrite Hshape. unfold V. rewrite !map_app.
    f_equal; [|f_equal]; apply map_ext_in; intros v Hv.
    - apply In_setdiff1d in Hv. destruct Hv as [Hv _].
      apply mem_In in Hv. fold xv. now rewrite Hv.
    - apply Hsh in Hv. destruct Hv as [Hv _].
      apply mem_In in Hv. now rewrite Hv.
    - apply In_setdiff1d in Hv. destruct Hv as [_ Hv].
      apply mem_notin in Hv. now rewrite Hv. }
  assert (Hcx : forall v, In v xv ->
                          card V (shape d) v = cardinality x v).
  { intros v Hv. rewrite Hcr, card_map by (apply HV; now left).
    apply mem_In in Hv. now rewrite Hv. }
  assert (Hcy : forall v, In v yv ->
                          card V (shape d) v = cardinality y v).
  { intros v Hv. rewrite Hcr, card_map by (apply HV; now right).
    destruct (mem v xv) eqn:Hm; [|reflexivity].
    apply Hcard; [now apply mem_In | assumption]. }
  split; [|split; [|split; [|split]]].
  - exists V, d. split.
    + apply factor_init_ok. rewrite Hcr. now rewrite length_map.
    + apply NoDup_layout; try assumption.
      apply sorted_NoDup, sorted_shared.
  - exact HV.
  - exact Hcx.
  - exact Hcy.
  - intros env Hex Hey. split; [|now apply Hval].
    unfold assignment, fits. simpl. fold xv yv shared V.
    intros v Hv. apply HV in Hv. destruct Hv as [Hv|Hv].
    + change (env v < card V (shape d) v).
      rewrite (Hcx v Hv). now apply Hex.
    + change (env v < card V (shape d) v).
      rewrite (Hcy v Hv). now apply Hey.
Qed.

Lemma factor_marginalization_built (x r : factor) variables :
  factor_marginalization x variables = Ok r ->
  exists vs d, factor_init (Some vs) (Some d) = Ok r.
Proof.
  unfold factor_marginalization.
  destruct (is_none x); [discriminate|].
  destruct (negb _); [discriminate|].
  intros H.
  apply bind_ok in H. destruct H as (dx & _ & H).
  apply bind_ok in H. destruct H as (c & _ & H).
  eexists. eexists. exact H.
Qed.

Lemma factor_reduction_built (x r : factor) variable value :
  factor_reduction x variable value = Ok r ->
  exists vs d, factor_init (Some vs) (Some d) = Ok r.
Proof.
  unfold factor_reduction.
  destruct variable as [variable|]; [|discriminate].
  destruct value as [value|]; [|discriminate].
  destruct (is_none x); [discriminate|].
  destruct (negb _); [discriminate|].
  intros H.
  apply bind_ok in H. destruct H as (sh & _ & H).
  apply bind_ok in H. destruct H as (cd & _ & H).
  apply bind_ok in H. destruct H as (b & _ & H).
  destruct b; [discriminate|].
  apply bind_ok in H. destruct H as (dx & _ & H).
  apply bind_ok in H. destruct H as (ax & _ & H).
  apply bind_ok in H. destruct H as (c & _ & H).
  eexists. eexists. exact H.
Qed.

(** A reduction of a valid factor at a value index within the axis: the
    factor it returns. *)
Lemma factor_reduction_ok (x : factor) (v : string) (i : Z) :
  valid_factor x -> In v (f_variables x) ->
  (- Z.of_nat (cardinality x v) <= i < Z.of_nat (cardinality x v))%Z ->
  exists r,
    factor_reduction x (Some v) (Some i) = Ok r
    /\ valid_factor r
    /\ f_variables r
       = filter (fun w => negb (String.eqb v w)) (f_variables x)
    /\ (forall w, In w (f_variables r) -> cardinality r w = cardinality x w)
    /\ forall env,
        (forall w, In w (f_variables r) -> env w < cardinality x w) ->
        value r env
        = value x (updated env v
                     (Z.to_nat (if (i <? 0)%Z
                                then i + Z.of_nat (cardinality x v)
                                else i)%Z)).
Proof.
  intros Hx Hin Hi.
  destruct (factor_reduction_slice x v i Hx Hin Hi)
    as (r & Hr & Hvars & Hshape & Hval).
  destruct (valid_factor_fields x Hx) as (Hxnd & _).
  exists r. split; [exact Hr|].
  split; [|split; [exact Hvars|split; [|exact Hval]]].
  - destruct (factor_reduction_built _ _ _ _ Hr) as (vs & d & Hinit).
    exists vs, d. split; [exact Hinit|].
    apply factor_init_built in Hinit. destruct Hinit as [-> _].
    simpl in Hvars. rewrite Hvars. now apply NoDup_filter.
  - intros w Hw. unfold cardinality at 1. rewrite Hshape.
    now apply card_map.
Qed.

(** A marginalization of a valid factor over variables it has: the
    factor it returns. *)
Lemma factor_marginalization_ok (x : factor) (variables : list string) :
  valid_factor x -> incl variables (f_variables x) ->
  exists r,
    factor_marginalization x variables = Ok r
    /\ valid_factor r
    /\ f_variables r
       = filter (fun v => negb (mem v variables)) (f_variables x)
    /\ (forall v, In v (f_variables r) -> cardinality r v = cardinality x v)
    /\ forall env,
        (forall v, In v (f_variables r) -> env v < cardinality x v) ->
        value r env
        = sum_list
            (map (fun ks =>
                    value x (override env
                               (filter (fun v => mem v variables)
                                       (f_variables x)) ks))
                 (indices (map (cardinality x)
                               (filter (fun v => mem v variables)
                                       (f_variables x))))).
Proof.
  intros Hx Hincl.
  destruct (valid_factor_fields x Hx) as (Hxnd & Hxd & Hxs & Hxl & Hxn).
  unfold value, cardinality in *.
  set (xv := f_variables x) in *. set (dx := tensor x) in *.
  destruct (np_sum_names dx xv (fun v => mem v variables) Hxnd Hxl)
    as (c & Hsum & Hshape & Hget).
  unfold factor_marginalization. rewrite Hxn.
  unfold get_variables, get_distribution. fold xv.
  rewrite np_all_in1d by assumption. cbn [negb].
  rewrite Hxd. cbn [the bind]. rewrite isin_mask, Hsum. cbn [bind].
  rewrite setdiff1d_filter.
  rewrite factor_init_ok by now rewrite Hshape, length_map.
  eexists. split; [reflexivity|]. simpl.
  split; [|split; [reflexivity|split]].
  - eexists. exists c. split.
    + apply factor_init_ok. now rewrite Hshape, length_map.
    + now apply NoDup_filter.
  - intros v Hv.
    change (card (filter (fun v => negb (mem v variables)) xv) (shape c) v
            = card xv (shape dx) v).
    rewrite Hshape. now apply card_map.
  - intros env Henv. rewrite Hget.
    + f_equal. apply map_ext. intros ks. f_equal.
      apply map_ext_in. intros v Hv. unfold override.
      destruct (mem v variables) eqn:Hm.
      * assert (Hr : mem v (filter (fun v => mem v variables) xv) = true)
          by (apply mem_In, filter_In; now split).
        now rewrite Hr.
      * assert (Hr : mem v (filter (fun v => mem v variables) xv) = false).
        { apply mem_notin. intros H. apply filter_In in H.
          destruct H as [_ H]. congruence. }
        now rewrite Hr.
    + intros v Hv Hm. apply Henv. apply filter_In. split; [assumption|].
      now rewrite Hm.
Qed.


(** ** How reduction and marginalization fail *)

Lemma np_any_eq_scalar_none v xv :
  ~ In v xv -> np_any (eq_scalar v xv) = false.
Proof.
  intros Hnin. unfold np_any, eq_scalar.
  destruct (existsb _ _) eqn:E; [|reflexivity].
  apply existsb_exists in E. destruct E as [b [Hb ->]].
  apply in_map_iff in Hb. destruct Hb as [w [Hw Hin]].
  apply String.eqb_eq in Hw. subst w. contradiction.
Qed.

Lemma factor_reduction_unknown (x : factor) (v : string) (i : Z) :
  is_none x = false -> ~ In v (f_variables x) ->
  factor_reduction x (Some v) (Some i)
  = Raise (Exception "Factor do not contain given variable").
Proof.
  intros Hn Hnin. unfold factor_reduction. rewrite Hn.
  unfold get_variables. now rewrite np_any_eq_scalar_none.
Qed.

(** The steps of [factor_reduction] on a variable of a valid factor, up
    to the call of [np.take]. *)
Lemma factor_reduction_steps (x : factor) (v : string) (i : Z) :
  valid_factor x -> In v (f_variables x) ->
  factor_reduction x (Some v) (Some i)
  = if (Z.of_nat (cardinality x v) <=? i)%Z
    then Raise (Exception "Incorrect value of given variable")
    else res_distribution <-
           take (tensor x) i (index_of v (f_variables x)) ;;
         factor_init (Some (setdiff1d (f_variables x) [v]))
                     (Some res_distribution).
Proof.
  intros Hx Hin.
  destruct (valid_factor_fields x Hx) as (Hxnd & Hxd & Hxs & Hxl & Hxn).
  unfold cardinality, factor_reduction. rewrite Hxn.
  unfold get_variables, get_shape, get_distribution.
  rewrite np_any_eq_scalar by assumption. cbn [negb].
  rewrite Hxs, Hxd. cbn [the bind].
  rewrite where_eq_scalar by assumption.
  change [index_of v (f_variables x)]
    with (map (fun w => index_of w (f_variables x)) [v]).
  rewrite (fancy_cards (f_variables x))
    by (try assumption; intros w [<-|[]]; assumption).
  cbn [bind map truth int_of].
  destruct (Z.of_nat (card (f_variables x) (shape (tensor x)) v) <=? i)%Z;
    reflexivity.
Qed.

Lemma take_below (a : ndarray) (i : Z) (axis : nat) :
  axis < ndim a ->
  (i < - Z.of_nat (nth axis (shape a) 0%nat))%Z ->
  take a i axis
  = if fits_index i then Raise IndexError else Raise OverflowError.
Proof.
  intros Hax Hlow. unfold take.
  rewrite (nth_error_nth' _ 0 Hax).
  replace ((- Z.of_nat (nth axis (shape a) 0%nat) <=? i)%Z) with false
    by (symmetry; apply Z.leb_gt; lia).
  reflexivity.
Qed.

Lemma np_all_in1d_inv variables xv :
  np_all (in1d variables xv) = true -> incl variables xv.
Proof.
  unfold np_all, in1d. rewrite isin_mask, forallb_forall.
  intros H v Hv. apply mem_In. apply H. apply in_map_iff.
  exists v. now split.
Qed.

Lemma factor_marginalization_unknown_raises (x : factor) variables v :
  is_none x = false -> In v variables -> ~ In v (f_variables x) ->
  factor_marginalization x variables
  = Raise (Exception "Factor do not contain given variables").
Proof.
  intros Hn Hv Hnin. unfold factor_marginalization. rewrite Hn.
  unfold get_variables.
  destruct (np_all (in1d variables (f_variables x))) eqn:Hall;
    [|reflexivity].
  apply np_all_in1d_inv in Hall. exfalso. apply Hnin. now apply Hall.
Qed.

Lemma factor_marginalization_inv (x r : factor) variables :
  factor_marginalization x variables = Ok r ->
  incl variables (f_variables x).
Proof.
  unfold factor_marginalization.
  destruct (is_none x); [discriminate|].
  unfold get_variables.
  destruct (np_all (in1d variables (f_variables x))) eqn:Hall;
    [|discriminate].
  intros _. now apply np_all_in1d_inv.
Qed.

Lemma factor_reduction_inv (x r : factor) (v : string) (i : Z) :
  valid_factor x -> factor_reduction x (Some v) (Some i) = Ok r ->
  In v (f_variables x)
  /\ (- Z.of_nat (cardinality x v) <= i < Z.of_nat (cardinality x v))%Z.
Proof.
  intros Hx Hr.
  destruct (valid_factor_fields x Hx) as (Hxnd & Hxd & Hxs & Hxl & Hxn).
  destruct (in_dec string_dec v (f_variables x)) as [Hin|Hnin].
  2:{ rewrite factor_reduction_unknown in Hr by assumption. discriminate. }
  split; [exact Hin|].
  rewrite factor_reduction_steps in Hr by assumption.
  destruct (Z.leb_spec (Z.of_nat (cardinality x v)) i) as [Hle|Hlt];
    [discriminate|].
  split; [|exact Hlt].
  destruct (Z.le_gt_cases (- Z.of_nat (cardinality x v)) i) as [Hge|Hlow];
    [exact Hge|].
  rewrite take_below in Hr.
  - destruct (fits_index i); discriminate.
  - unfold ndim. rewrite <- Hxl. now apply index_of_lt.
  - exact Hlow.
Qed.


Lemma setdiff1d_self xv : setdiff1d xv xv = [].
Proof.
  rewrite setdiff1d_filter.
  assert (H : forall l, incl l xv ->
                        filter (fun v => negb (mem v xv)) l = []).
  { induction l as [|a l IH]; intros Hincl; simpl; [reflexivity|].
    assert (Ha : mem a xv = true) by (apply mem_In, Hincl; now left).
    rewrite Ha. simpl. apply IH. intros z Hz. apply Hincl. now right. }
  apply H, incl_refl.
Qed.

Lemma filter_all {A : Type} (P : A -> bool) (l : list A) :
  (forall a, In a l -> P a = true) -> filter P l = l.
Proof.
  induction l as [|a l IH]; intros H; simpl; [reflexivity|].
  rewrite (H a (or_introl eq_refl)). f_equal.
  apply IH. intros b Hb. apply H. now right.
Qed.

Lemma filter_none {A : Type} (P : A -> bool) (l : list A) :
  (forall a, In a l -> P a = false) -> filter P l = [].
Proof.
  induction l as [|a l IH]; intros H; simpl; [reflexivity|].
  rewrite (H a (or_introl eq_refl)).
  apply IH. intros b Hb. apply H. now right.
Qed.

(** ** The product *)

(** X2.  A product of two valid factors that succeeds is a valid factor
    again: it is built by the constructor, its names are without
    repetition, and they are the names of [x] together with those of
    [y]. *)
Theorem factor_product_closed (x y r : factor) :
  valid_factor x -> valid_factor y -> factor_product x y = Ok r ->
  valid_factor r
  /\ forall v, In v (f_variables r)
               <-> In v (f_variables x) \/ In v (f_variables y).
Proof.
  intros Hx Hy Hr.
  destruct (factor_product_ok x y r Hx Hy Hr) as (Hv & Hin & _).
  now split.
Qed.

(** X3.  In a product of two valid factors every variable keeps the
    cardinality it has in the operand it comes from, so an assignment
    that is in range for both operands is in range for the product. *)
Theorem factor_product_cardinality (x y r : factor) :
  valid_factor x -> valid_factor y -> factor_product x y = Ok r ->
  (forall v, In v (f_variables x) -> cardinality r v = cardinality x v)
  /\ (forall v, In v (f_variables y) -> cardinality r v = cardinality y v)
  /\ forall env, assignment x env -> assignment y env -> assignment r env.
Proof.
  intros Hx Hy Hr.
  destruct (factor_product_ok x y r Hx Hy Hr) as (_ & _ & Hcx & Hcy & Hval).
  split; [exact Hcx|]. split; [exact Hcy|].
  intros env Hex Hey. now apply (Hval env).
Qed.

(** X4.  The product of a valid factor with itself succeeds when it has a
    variable; the result has the same variables, now in increasing order
    of their names, and holds the square of every entry. *)
Theorem factor_product_self (x : factor) :
  valid_factor x -> f_variables x <> [] ->
  exists r,
    factor_product x x = Ok r
    /\ StronglySorted str_lt (f_variables r)
    /\ (forall v, In v (f_variables r) <-> In v (f_variables x))
    /\ forall env, assignment x env ->
         value r env = mul (value x env) (value x env).
Proof.
  intros Hx Hne.
  assert (Hex : exists v, In v (f_variables x) /\ In v (f_variables x)).
  { destruct (f_variables x) as [|v l]; [congruence|].
    exists v. split; now left. }
  destruct (factor_product_full x x Hx Hx (shared_nonempty _ _ Hex)
              (fun v _ _ => eq_refl)) as (d & Hp & _ & Hval).
  rewrite setdiff1d_self in Hp, Hval. rewrite app_nil_r in Hp, Hval.
  simpl app in Hp, Hval.
  eexists. split; [exact Hp|]. simpl.
  split; [apply sorted_shared|]. split.
  - intros v. rewrite In_shared. split; [intros [H _]; exact H | now split].
  - intros env Henv. now apply Hval.
Qed.

(** ** Marginalization *)

(** X7.  Marginalization of a factor that holds a tensor over a list with
    a variable the factor does not have raises the notebook's exception
    for unknown variables; nothing is summed. *)
Theorem factor_marginalization_unknown (x : factor) variables v :
  is_none x = false -> In v variables -> ~ In v (f_variables x) ->
  factor_marginalization x variables
  = Raise (Exception "Factor do not contain given variables").
Proof. apply factor_marginalization_unknown_raises. Qed.

(** X8.  For an addition that satisfies [addition_laws], marginalizing a
    valid factor over all its variables (listed in any order, with or
    without repetition) gives a valid factor without variables whose
    single entry is the sum of all the entries of the tensor, in whatever
    order and grouping they are added. *)
Theorem factor_marginalization_all (x : factor) variables :
  addition_laws ->
  valid_factor x ->
  incl variables (f_variables x) -> incl (f_variables x) variables ->
  exists r,
    factor_marginalization x variables = Ok r
    /\ valid_factor r
    /\ f_variables r = []
    /\ shape (tensor r) = []
    /\ forall env,
        value r env
        = sum_list (map (get (tensor x)) (indices (shape (tensor x))))
        /\ forall s,
            sum_of (map (get (tensor x)) (indices (shape (tensor x)))) s ->
            s = value r env.
Proof.
  intros Hlaws Hx Hin Hall.
  destruct (valid_factor_fields x Hx) as (Hxnd & _ & _ & Hxl & _).
  destruct (factor_marginalization_ok x variables Hx Hin)
    as (r & Hr & Hv & Hvars & _ & Hval).
  assert (Hnone : f_variables r = []).
  { rewrite Hvars. apply filter_none. intros v Hv'.
    apply negb_false_iff, mem_In. now apply Hall. }
  exists r. split; [exact Hr|]. split; [exact Hv|].
  split; [exact Hnone|]. split.
  - destruct (valid_factor_fields r Hv) as (_ & _ & _ & Hl & _).
    rewrite Hnone in Hl. symmetry in Hl.
    now apply length_zero_iff_nil in Hl.
  - intros env.
    assert (He : value r env
                 = sum_list (map (get (tensor x))
                                 (indices (shape (tensor x)))));
      [|split; [exact He | intros s Hs; rewrite He;
                           now apply sum_of_unique]].
    rewrite Hval by (rewrite Hnone; intros v []).
    rewrite (filter_all (fun v => mem v variables))
      by (intros v Hv'; apply mem_In; now apply Hall).
    unfold cardinality. rewrite shape_cards by assumption.
    f_equal. apply map_ext_in. intros ks Hks.
    apply In_indices, in_range_length in Hks.
    unfold value. f_equal.
    rewrite <- (map_rank_nth (f_variables x) ks) at 2
      by (try assumption; now rewrite Hks).
    apply map_ext_in. intros v Hv'. unfold override.
    apply mem_In in Hv'. now rewrite Hv'.
Qed.

(** X9.  A marginalization of a valid factor that succeeds was given
    variables of the factor, and returns a valid factor over the variables
    that were not given, each with the cardinality it had. *)
Theorem factor_marginalization_closed (x r : factor) variables :
  valid_factor x -> factor_marginalization x variables = Ok r ->
  incl variables (f_variables x)
  /\ valid_factor r
  /\ (forall v, In v (f_variables r)
                <-> In v (f_variables x) /\ ~ In v variables)
  /\ forall v, In v (f_variables r) -> cardinality r v = cardinality x v.
Proof.
  intros Hx Hr.
  pose proof (factor_marginalization_inv x r variables Hr) as Hincl.
  destruct (factor_marginalization_ok x variables Hx Hincl)
    as (r' & Hr' & Hv & Hvars & Hcard & _).
  rewrite Hr in Hr'. inversion Hr'. subst r'.
  split; [exact Hincl|]. split; [exact Hv|]. split; [|exact Hcard].
  intros v. rewrite Hvars, filter_In, negb_true_iff, mem_notin.
  reflexivity.
Qed.

(** ** Reduction *)

(** X10.  The checks of [factor_reduction] on a valid factor: a missing
    variable or value, a variable the factor does not have, and a value
    index at or above the cardinality of the variable each raise the
    notebook's exception for that case. *)
Theorem factor_reduction_rejects (x : factor) :
  valid_factor x ->
  (forall value, factor_reduction x None value
                 = Raise (Exception "Input is None"))
  /\ (forall variable, factor_reduction x variable None
                       = Raise (Exception "Input is None"))
  /\ (forall v i, ~ In v (f_variables x) ->
                  factor_reduction x (Some v) (Some i)
                  = Raise (Exception "Factor do not contain given variable"))
  /\ (forall v i, In v (f_variables x) ->
                  (Z.of_nat (cardinality x v) <= i)%Z ->
                  factor_reduction x (Some v) (Some i)
                  = Raise (Exception "Incorrect value of given variable")).
Proof.
  intros Hx.
  destruct (valid_factor_fields x Hx) as (_ & _ & _ & _ & Hxn).
  split; [|split; [|split]].
  - intros value. reflexivity.
  - intros [variable|]; reflexivity.
  - intros v i Hnin. now apply factor_reduction_unknown.
  - intros v i Hin Hi. rewrite factor_reduction_steps by assumption.
    apply Z.leb_le in Hi. now rewrite Hi.
Qed.

(** X11.  A value index below minus the cardinality of the variable
    passes the check of [factor_reduction], which only tests
    [value >= cardinality], and fails inside [np.take]: with numpy's
    [IndexError] when the value fits a 64-bit index, with the
    [OverflowError] of the conversion when it does not; in neither case
    with one of the notebook's own exceptions. *)
Theorem factor_reduction_below_range (x : factor) (v : string) (i : Z) :
  valid_factor x -> In v (f_variables x) ->
  (i < - Z.of_nat (cardinality x v))%Z ->
  ((- 2 ^ 63 <= i)%Z ->
   factor_reduction x (Some v) (Some i) = Raise IndexError)
  /\ ((i < - 2 ^ 63)%Z ->
      factor_reduction x (Some v) (Some i) = Raise OverflowError)
  /\ ~ InvalidArgument (factor_reduction x (Some v) (Some i)).
Proof.
  intros Hx Hin Hi.
  destruct (valid_factor_fields x Hx) as (_ & _ & _ & Hxl & _).
  assert (Hr : factor_reduction x (Some v) (Some i)
               = if fits_index i then Raise IndexError
                 else Raise OverflowError).
  { rewrite factor_reduction_steps by assumption.
    replace ((Z.of_nat (cardinality x v) <=? i)%Z) with false
      by (symmetry; apply Z.leb_gt; lia).
    rewrite take_below; [now destruct (fits_index i) | |exact Hi].
    unfold ndim. rewrite <- Hxl. now apply index_of_lt. }
  rewrite Hr. unfold fits_index. split; [|split].
  - intros Hlow.
    replace ((- 2 ^ 63 <=? i)%Z) with true by (symmetry; apply Z.leb_le; lia).
    replace ((i <? 2 ^ 63)%Z) with true by (symmetry; apply Z.ltb_lt; lia).
    reflexivity.
  - intros Hlow.
    replace ((- 2 ^ 63 <=? i)%Z) with false
      by (symmetry; apply Z.leb_gt; lia).
    reflexivity.
  - destruct ((- 2 ^ 63 <=? i) && (i <? 2 ^ 63))%Z;
      intros [msg H]; discriminate H.
Qed.

(** X12.  A reduction of a valid factor that succeeds was given a
    variable of the factor and a value index within its axis (from the
    start or from the end), and returns a valid factor over the other
    variables, each with the cardinality it had. *)
Theorem factor_reduction_closed (x r : factor) (v : string) (i : Z) :
  valid_factor x -> factor_reduction x (Some v) (Some i) = Ok r ->
  In v (f_variables x)
  /\ (- Z.of_nat (cardinality x v) <= i < Z.of_nat (cardinality x v))%Z
  /\ valid_factor r
  /\ (forall w, In w (f_variables r) <-> In w (f_variables x) /\ w <> v)
  /\ forall w, In w (f_variables r) -> cardinality r w = cardinality x w.
Proof.
  intros Hx Hr.
  destruct (factor_reduction_inv x r v i Hx Hr) as [Hin Hi].
  destruct (factor_reduction_ok x v i Hx Hin Hi)
    as (r' & Hr' & Hv & Hvars & Hcard & _).
  rewrite Hr in Hr'. inversion Hr'. subst r'.
  split; [exact Hin|]. split; [exact Hi|]. split; [exact Hv|].
  split; [|exact Hcard].
  intros w. rewrite Hvars, filter_In, negb_true_iff, String.eqb_neq.
  split; intros [H1 H2]; split; try assumption; congruence.
Qed.


(** ** How the operations compose *)

Lemma product_loop_ok (rest : list factor) (acc r : factor) :
  valid_factor acc -> Forall valid_factor rest ->
  product_loop acc rest = Ok r ->
  valid_factor r
  /\ (forall v, In v (f_variables r)
                <-> In v (f_variables acc)
                    \/ exists f, In f rest /\ In v (f_variables f))
  /\ forall env,
      assignment acc env -> Forall (fun f => assignment f env) rest ->
      assignment r env
      /\ value r env
         = fold_left (fun a f => mul a (value f env)) rest (value acc env).
Proof.
  intros Hacc Hrest. revert acc Hacc.
  induction Hrest as [|f rest Hf Hrest IH]; intros acc Hacc Hr.
  - simpl in Hr. inversion Hr. subst r.
    split; [exact Hacc|]. split.
    + intros v. split; [now left|].
      intros [H|[f [[] _]]]. exact H.
    + intros env Ha _. now split.
  - simpl in Hr. apply bind_ok in Hr. destruct Hr as (acc' & Hp & Hr).
    destruct (factor_product_ok acc f acc' Hacc Hf Hp)
      as (Hv' & Hin' & _ & _ & Hval').
    destruct (IH acc' Hv' Hr) as (Hv & Hin & Hval).
    split; [exact Hv|]. split.
    + intros v. rewrite Hin, Hin'. split.
      * intros [[H|H]|[g [Hg H]]].
        -- now left.
        -- right. exists f. split; [now left | exact H].
        -- right. exists g. split; [now right | exact H].
      * intros [H|[g [[<-|Hg] H]]].
        -- left. now left.
        -- left. now right.
        -- right. exists g. now split.
    + intros env Ha Hall. inversion Hall as [|f' rest' Hfe Hre]; subst.
      destruct (Hval' env Ha Hfe) as [Ha' Hmul].
      destruct (Hval env Ha' Hre) as [Hr' Hfold].
      split; [exact Hr'|]. simpl. now rewrite Hfold, Hmul.
Qed.

Lemma valid_not_none (ar : list factor) :
  Forall valid_factor ar -> Forall (fun f => is_none f = false) ar.
Proof.
  intros H. eapply Forall_impl; [|exact H].
  intros f Hf. now destruct (valid_factor_fields f Hf) as (_ & _ & _ & _ & Hn).
Qed.

(** X6.  The joint distribution of valid factors, when it succeeds, is a
    valid factor over the variables of all of them whose entry at a joint
    assignment is the product, from left to right, of the entries of the
    factors. *)
Theorem joint_distribution_value (f1 r : factor) (rest : list factor) :
  Forall valid_factor (f1 :: rest) ->
  joint_distribution (f1 :: rest) = Ok r ->
  valid_factor r
  /\ (forall v, In v (f_variables r)
                <-> exists f, In f (f1 :: rest) /\ In v (f_variables f))
  /\ forall env,
      Forall (fun f => assignment f env) (f1 :: rest) ->
      value r env
      = fold_left (fun a f => mul a (value f env)) rest (value f1 env).
Proof.
  intros Hall Hr.
  unfold joint_distribution in Hr.
  rewrite (check_none_ok _ (valid_not_none _ Hall)) in Hr. cbn [bind] in Hr.
  inversion Hall as [|f rest' Hf1 Hrest]; subst.
  destruct (product_loop_ok rest f1 r Hf1 Hrest Hr) as (Hv & Hin & Hval).
  split; [exact Hv|]. split.
  - intros v. rewrite Hin. split.
    + intros [H|[g [Hg H]]].
      * exists f1. split; [now left | exact H].
      * exists g. split; [now right | exact H].
    + intros [g [[<-|Hg] H]].
      * now left.
      * right. exists g. now split.
  - intros env Henv. inversion Henv as [|f rest' He1 Herest]; subst.
    now apply (Hval env).
Qed.

(** X5.  The product is associative in value: when [(a * b) * c] and
    [a * (b * c)] both succeed on valid factors, the two results have the
    same variables and, for an associative multiplication of scalars, the
    same entry at every joint assignment. *)
Theorem factor_product_associative (a b c ab bc r1 r2 : factor) :
  (forall p q s, mul (mul p q) s = mul p (mul q s)) ->
  valid_factor a -> valid_factor b -> valid_factor c ->
  factor_product a b = Ok ab -> factor_product ab c = Ok r1 ->
  factor_product b c = Ok bc -> factor_product a bc = Ok r2 ->
  (forall v, In v (f_variables r1) <-> In v (f_variables r2))
  /\ forall env, assignment a env -> assignment b env -> assignment c env ->
       value r1 env = value r2 env.
Proof.
  intros Hassoc Ha Hb Hc Hab Hr1 Hbc Hr2.
  destruct (factor_product_ok a b ab Ha Hb Hab) as (Hvab & Hiab & _ & _ & Hab').
  destruct (factor_product_ok b c bc Hb Hc Hbc) as (Hvbc & Hibc & _ & _ & Hbc').
  destruct (factor_product_ok ab c r1 Hvab Hc Hr1) as (_ & Hi1 & _ & _ & H1).
  destruct (factor_product_ok a bc r2 Ha Hvbc Hr2) as (_ & Hi2 & _ & _ & H2).
  split.
  - intros v. rewrite Hi1, Hi2, Hiab, Hibc. split.
    + intros [[H|H]|H]; [now left | right; now left | right; now right].
    + intros [H|[H|H]]; [left; now left | left; now right | now right].
  - intros env Hea Heb Hec.
    destruct (Hab' env Hea Heb) as [Heab Vab].
    destruct (Hbc' env Heb Hec) as [Hebc Vbc].
    destruct (H1 env Heab Hec) as [_ V1].
    destruct (H2 env Hea Hebc) as [_ V2].
    rewrite V1, V2, Vab, Vbc. apply Hassoc.
Qed.


Lemma filter_comm {A : Type} (P Q : A -> bool) (l : list A) :
  filter P (filter Q l) = filter Q (filter P l).
Proof.
  induction l as [|a l IH]; simpl; [reflexivity|].
  destruct (P a) eqn:HP, (Q a) eqn:HQ; simpl;
    rewrite ?HP, ?HQ, IH; reflexivity.
Qed.

Lemma in_range_nth sh ks k :
  in_range sh ks -> k < List.length sh -> nth k ks 0 < nth k sh 0.
Proof.
  unfold in_range. intros H. revert k.
  induction H as [|i n ks sh Hi H IH]; intros k Hk; simpl in Hk; [lia|].
  destruct k as [|k]; simpl; [exact Hi | apply IH; lia].
Qed.

(** A reduction at a value index counted from the start. *)
Lemma factor_reduction_at (x : factor) (v : string) (i : Z) :
  valid_factor x -> In v (f_variables x) ->
  (0 <= i < Z.of_nat (cardinality x v))%Z ->
  exists r,
    factor_reduction x (Some v) (Some i) = Ok r
    /\ valid_factor r
    /\ f_variables r
       = filter (fun w => negb (String.eqb v w)) (f_variables x)
    /\ (forall w, In w (f_variables r) -> cardinality r w = cardinality x w)
    /\ forall env,
        (forall w, In w (f_variables r) -> env w < cardinality x w) ->
        value r env = value x (updated env v (Z.to_nat i)).
Proof.
  intros Hx Hin Hi.
  destruct (factor_reduction_ok x v i Hx Hin) as (r & Hr & Hv & Hvars & Hc & Hg);
    [lia|].
  exists r. repeat (split; [assumption|]).
  intros env Henv. rewrite Hg by assumption.
  replace ((i <? 0)%Z) with false by (symmetry; apply Z.ltb_ge; lia).
  reflexivity.
Qed.

Lemma In_reduced (xv : list string) (v u : string) :
  In u (filter (fun w => negb (String.eqb v w)) xv) <-> In u xv /\ u <> v.
Proof.
  rewrite filter_In, negb_true_iff, String.eqb_neq.
  split; intros [H1 H2]; split; try assumption; congruence.
Qed.

Lemma updated_same env v i : updated env v i v = i.
Proof. unfold updated. now rewrite String.eqb_refl. Qed.

Lemma updated_other env v i u : u <> v -> updated env v i u = env u.
Proof.
  intros Hne. unfold updated.
  destruct (String.eqb_spec u v); [contradiction | reflexivity].
Qed.

(** X13.  Reductions on two different variables of a valid factor can be
    done in either order: both orders succeed, and give the same variables
    and the same entry at every assignment of the remaining variables. *)
Theorem factor_reduction_commute (x : factor) (v w : string) (i j : Z) :
  valid_factor x ->
  In v (f_variables x) -> In w (f_variables x) -> v <> w ->
  (0 <= i < Z.of_nat (cardinality x v))%Z ->
  (0 <= j < Z.of_nat (cardinality x w))%Z ->
  exists rv rw r1 r2,
    factor_reduction x (Some v) (Some i) = Ok rv
    /\ factor_reduction rv (Some w) (Some j) = Ok r1
    /\ factor_reduction x (Some w) (Some j) = Ok rw
    /\ factor_reduction rw (Some v) (Some i) = Ok r2
    /\ f_variables r1 = f_variables r2
    /\ forall env,
        (forall u, In u (f_variables r1) -> env u < cardinality x u) ->
        value r1 env = value r2 env.
Proof.
  intros Hx Hv Hw Hne Hi Hj.
  destruct (factor_reduction_at x v i Hx Hv Hi)
    as (rv & Hrv & Hvv & Hvars_v & Hcv & Hgv).
  destruct (factor_reduction_at x w j Hx Hw Hj)
    as (rw & Hrw & Hvw & Hvars_w & Hcw & Hgw).
  assert (Hw' : In w (f_variables rv))
    by (rewrite Hvars_v; apply In_reduced; split; [assumption | congruence]).
  assert (Hv' : In v (f_variables rw))
    by (rewrite Hvars_w; apply In_reduced; now split).
  destruct (factor_reduction_at rv w j Hvv Hw')
    as (r1 & Hr1 & _ & Hvars_1 & _ & Hg1);
    [rewrite (Hcv w Hw'); exact Hj|].
  destruct (factor_reduction_at rw v i Hvw Hv')
    as (r2 & Hr2 & _ & Hvars_2 & _ & Hg2);
    [rewrite (Hcw v Hv'); exact Hi|].
  exists rv, rw, r1, r2.
  repeat (split; [assumption|]).
  assert (Hsame : f_variables r1 = f_variables r2)
    by (rewrite Hvars_1, Hvars_2, Hvars_v, Hvars_w; apply filter_comm).
  split; [exact Hsame|].
  intros env Henv.
  assert (H1 : forall u, In u (f_variables rv) ->
                          updated env w (Z.to_nat j) u < cardinality x u).
  { intros u Hu. destruct (String.eqb_spec u w) as [->|Huw].
    - rewrite updated_same. lia.
    - rewrite updated_other by assumption. apply Henv.
      rewrite Hvars_1. apply In_reduced. now split. }
  assert (H2 : forall u, In u (f_variables rw) ->
                          updated env v (Z.to_nat i) u < cardinality x u).
  { intros u Hu. destruct (String.eqb_spec u v) as [->|Huv].
    - rewrite updated_same. lia.
    - rewrite updated_other by assumption. apply Henv.
      rewrite Hsame, Hvars_2. apply In_reduced. now split. }
  assert (HA1 : forall u, In u (f_variables r1) -> env u < cardinality rv u).
  { intros u Hu. rewrite (Hcv u).
    - now apply Henv.
    - rewrite Hvars_1 in Hu. now apply In_reduced in Hu. }
  assert (HA2 : forall u, In u (f_variables r2) -> env u < cardinality rw u).
  { intros u Hu. rewrite (Hcw u).
    - apply Henv. now rewrite Hsame.
    - rewrite Hvars_2 in Hu. now apply In_reduced in Hu. }
  rewrite (Hg1 env HA1), (Hg2 env HA2), (Hgv _ H1), (Hgw _ H2).
  unfold value. f_equal. apply map_ext. intros u.
  destruct (String.eqb_spec u v) as [Euv|Huv];
    destruct (String.eqb_spec u w) as [Euw|Huw].
  - exfalso. apply Hne. now rewrite <- Euv, <- Euw.
  - subst u. rewrite updated_same, (updated_other _ w) by assumption.
    now rewrite updated_same.
  - subst u. rewrite (updated_other _ v) by assumption.
    now rewrite !updated_same.
  - now rewrite !updated_other by assumption.
Qed.

(** X14.  Reducing a product of two valid factors on one of its variables
    gives, at every assignment of the remaining variables, the product of
    the entries of the two operands with that variable at the observed
    value. *)
Theorem factor_reduction_of_product (x y r : factor) (v : string) (i : Z) :
  valid_factor x -> valid_factor y -> factor_product x y = Ok r ->
  In v (f_variables r) ->
  (0 <= i < Z.of_nat (cardinality r v))%Z ->
  exists r',
    factor_reduction r (Some v) (Some i) = Ok r'
    /\ forall env,
        (forall u, In u (f_variables r') -> env u < cardinality r u) ->
        value r' env
        = mul (value x (updated env v (Z.to_nat i)))
              (value y (updated env v (Z.to_nat i))).
Proof.
  intros Hx Hy Hr Hv Hi.
  destruct (factor_product_ok x y r Hx Hy Hr) as (Hvr & Hin & Hcx & Hcy & Hval).
  destruct (factor_reduction_at r v i Hvr Hv Hi)
    as (r' & Hr' & _ & Hvars & _ & Hg).
  exists r'. split; [exact Hr'|].
  intros env Henv. rewrite Hg by assumption.
  assert (Hu : forall u, In u (f_variables r) ->
                         updated env v (Z.to_nat i) u < cardinality r u).
  { intros u Hu. destruct (String.eqb_spec u v) as [->|Huv].
    - rewrite updated_same. lia.
    - rewrite updated_other by assumption. apply Henv.
      rewrite Hvars. apply In_reduced. now split. }
  apply Hval.
  - intros u Hux. change (updated env v (Z.to_nat i) u < cardinality x u).
    rewrite <- (Hcx u Hux). apply Hu. apply Hin. now left.
  - intros u Huy. change (updated env v (Z.to_nat i) u < cardinality y u).
    rewrite <- (Hcy u Huy). apply Hu. apply Hin. now right.
Qed.


Lemma override_in_range (f : string -> nat) env removed ks u :
  in_range (map f removed) ks -> In u removed ->
  override env removed ks u < f u.
Proof.
  intros Hks Hu. unfold override.
  assert (Hm : mem u removed = true) by now apply mem_In.
  rewrite Hm.
  pose proof (in_range_nth _ _ (index_of u removed) Hks) as H.
  rewrite length_map in H. specialize (H (index_of_lt u removed Hu)).
  rewrite (nth_map_in _ _ _ ""%string) in H by now apply index_of_lt.
  now rewrite nth_index_of in H.
Qed.

Lemma override_outside env removed ks u :
  ~ In u removed -> override env removed ks u = env u.
Proof.
  intros Hu. unfold override. apply mem_notin in Hu. now rewrite Hu.
Qed.

(** X15.  Conditioning and summing out commute, for an addition that
    satisfies [addition_laws]: for a valid factor, variables to sum out
    and an observed variable that is not among them, marginalizing and
    then reducing succeeds, reducing and then marginalizing succeeds, and
    the two results have the same variables and the same entry at every
    assignment of the remaining variables: the sum, in whatever order and
    grouping, of the entries of [x] at the observed value over the values
    of the removed variables. *)
Theorem factor_reduction_marginalization_commute
        (x : factor) (variables : list string) (w : string) (i : Z) :
  addition_laws ->
  valid_factor x -> incl variables (f_variables x) ->
  In w (f_variables x) -> ~ In w variables ->
  (0 <= i < Z.of_nat (cardinality x w))%Z ->
  exists m rm rx mr,
    factor_marginalization x variables = Ok m
    /\ factor_reduction m (Some w) (Some i) = Ok rm
    /\ factor_reduction x (Some w) (Some i) = Ok rx
    /\ factor_marginalization rx variables = Ok mr
    /\ f_variables rm = f_variables mr
    /\ forall env,
        (forall u, In u (f_variables rm) -> env u < cardinality x u) ->
        value rm env = value mr env
        /\ forall s,
            sum_of
              (map (fun ks =>
                      value x (override (updated env w (Z.to_nat i))
                                 (filter (fun v => mem v variables)
                                         (f_variables x)) ks))
                   (indices (map (cardinality x)
                                 (filter (fun v => mem v variables)
                                         (f_variables x))))) s ->
            s = value rm env.
Proof.
  intros Hlaws Hx Hincl Hw Hnw Hi.
  destruct (factor_marginalization_ok x variables Hx Hincl)
    as (m & Hm & Hvm & Hvars_m & Hcm & Hgm).
  assert (Hwm : In w (f_variables m)).
  { rewrite Hvars_m. apply filter_In. split; [assumption|].
    apply negb_true_iff. now apply mem_notin. }
  destruct (factor_reduction_at m w i Hvm Hwm)
    as (rm & Hrm & _ & Hvars_rm & _ & Hgrm);
    [rewrite (Hcm w Hwm); exact Hi|].
  destruct (factor_reduction_at x w i Hx Hw Hi)
    as (rx & Hrx & Hvrx & Hvars_rx & Hcrx & Hgrx).
  assert (Hincl' : incl variables (f_variables rx)).
  { intros u Hu. rewrite Hvars_rx. apply In_reduced.
    split; [now apply Hincl | congruence]. }
  destruct (factor_marginalization_ok rx variables Hvrx Hincl')
    as (mr & Hmr & _ & Hvars_mr & _ & Hgmr).
  exists m, rm, rx, mr. repeat (split; [assumption|]).
  assert (Hsame : f_variables rm = f_variables mr)
    by (rewrite Hvars_rm, Hvars_mr, Hvars_m, Hvars_rx; apply filter_comm).
  split; [exact Hsame|].
  intros env Henv.
  set (removed := filter (fun v => mem v variables) (f_variables x)).
  assert (Hrem : filter (fun v => mem v variables) (f_variables rx)
                 = removed).
  { rewrite Hvars_rx, filter_comm. apply filter_all.
    intros u Hu. apply filter_In in Hu. destruct Hu as [_ Hu].
    apply mem_In in Hu. apply negb_true_iff, String.eqb_neq. congruence. }
  assert (Hrem_in : forall u, In u removed -> In u (f_variables rx)).
  { intros u Hu. rewrite <- Hrem in Hu. now apply filter_In in Hu. }
  assert (Hcards : map (cardinality rx) removed
                   = map (cardinality x) removed).
  { apply map_ext_in. intros u Hu. apply Hcrx. now apply Hrem_in. }
  assert (Hrm_in : forall u, In u (f_variables rm)
                             <-> In u (f_variables m) /\ u <> w)
    by (intros u; rewrite Hvars_rm; apply In_reduced).
  (* the left side *)
  assert (HL : value rm env
               = sum_list
                   (map (fun ks =>
                           value x (override (updated env w (Z.to_nat i))
                                             removed ks))
                        (indices (map (cardinality x) removed)))).
  { rewrite Hgrm.
    2:{ intros u Hu. rewrite (Hcm u); [now apply Henv|]. now apply Hrm_in. }
    rewrite Hgm; [reflexivity|].
    intros u Hu. destruct (String.eqb_spec u w) as [Euw|Huw].
    - subst u. rewrite updated_same. lia.
    - rewrite updated_other by assumption. apply Henv.
      apply Hrm_in. now split. }
  split; [|intros s Hs; rewrite HL; now apply sum_of_unique].
  rewrite HL.
  (* the right side *)
  rewrite Hgmr.
  2:{ intros u Hu. rewrite <- Hsame in Hu. rewrite (Hcrx u).
      - now apply Henv.
      - apply Hrm_in in Hu. destruct Hu as [Hu Huw].
        rewrite Hvars_rx. apply In_reduced. split; [|assumption].
        rewrite Hvars_m in Hu. now apply filter_In in Hu. }
  rewrite Hrem, Hcards. fold removed.
  f_equal. apply map_ext_in. intros ks Hks. apply In_indices in Hks.
  rewrite Hgrx.
  - unfold value. f_equal. apply map_ext. intros u.
    destruct (String.eqb_spec u w) as [Euw|Huw].
    + subst u. rewrite updated_same.
      rewrite override_outside; [now rewrite updated_same|].
      intros H. apply filter_In in H. destruct H as [_ H].
      apply mem_In in H. contradiction.
    + rewrite updated_other by assumption. unfold override.
      destruct (mem u removed); [reflexivity|].
      now rewrite updated_other.
  - intros u Hu.
    destruct (in_dec string_dec u removed) as [Hin|Hnin].
    + now apply override_in_range.
    + rewrite override_outside by assumption. apply Henv.
      rewrite Hvars_rx in Hu. apply In_reduced in Hu.
      destruct Hu as [Hux Huw].
      apply Hrm_in. split; [|assumption].
      rewrite Hvars_m. apply filter_In. split; [assumption|].
      apply negb_true_iff, mem_notin. intros Huv. apply Hnin.
      apply filter_In. split; [assumption | now apply mem_In].
Qed.


(** X16.  For an addition that satisfies [addition_laws], summing
    variables out of a product of two valid factors gives a valid factor
    whose entry, at every assignment of the remaining variables, is the
    sum over the values of the removed variables, in whatever order and
    grouping, of the products of the entries of the two operands: the
    step of variable elimination. *)
Theorem factor_marginalization_of_product
        (x y r : factor) (variables : list string) :
  addition_laws ->
  valid_factor x -> valid_factor y -> factor_product x y = Ok r ->
  incl variables (f_variables r) ->
  exists m,
    factor_marginalization r variables = Ok m
    /\ valid_factor m
    /\ (forall v, In v (f_variables m)
                  <-> (In v (f_variables x) \/ In v (f_variables y))
                      /\ ~ In v variables)
    /\ forall env,
        (forall u, In u (f_variables m) -> env u < cardinality r u) ->
        value m env
        = sum_list
            (map (fun ks =>
                    mul (value x (override env
                                    (filter (fun v => mem v variables)
                                            (f_variables r)) ks))
                        (value y (override env
                                    (filter (fun v => mem v variables)
                                            (f_variables r)) ks)))
                 (indices (map (cardinality r)
                               (filter (fun v => mem v variables)
                                       (f_variables r)))))
        /\ forall s,
            sum_of
              (map (fun ks =>
                      mul (value x (override env
                                      (filter (fun v => mem v variables)
                                              (f_variables r)) ks))
                          (value y (override env
                                      (filter (fun v => mem v variables)
                                              (f_variables r)) ks)))
                   (indices (map (cardinality r)
                                 (filter (fun v => mem v variables)
                                         (f_variables r))))) s ->
            s = value m env.
Proof.
  intros Hlaws Hx Hy Hr Hincl.
  destruct (factor_product_ok x y r Hx Hy Hr) as (Hvr & Hin & Hcx & Hcy & Hval).
  destruct (factor_marginalization_ok r variables Hvr Hincl)
    as (m & Hm & Hvm & Hvars & _ & Hg).
  exists m. split; [exact Hm|]. split; [exact Hvm|]. split.
  - intros v. rewrite Hvars, filter_In, negb_true_iff, mem_notin, Hin.
    reflexivity.
  - intros env Henv.
    match goal with
    | |- ?lhs = ?rhs /\ _ =>
        assert (He : lhs = rhs);
          [|split; [exact He | intros s Hs; rewrite He;
                               now apply sum_of_unique]]
    end.
    rewrite Hg by assumption.
    f_equal. apply map_ext_in. intros ks Hks. apply In_indices in Hks.
    set (removed := filter (fun v => mem v variables) (f_variables r)) in *.
    assert (Hu : forall u, In u (f_variables r) ->
                           override env removed ks u < cardinality r u).
    { intros u Hu. destruct (in_dec string_dec u removed) as [Hi|Hn].
      - now apply override_in_range.
      - rewrite override_outside by assumption. apply Henv.
        rewrite Hvars. apply filter_In. split; [assumption|].
        apply negb_true_iff, mem_notin. intros Huv. apply Hn.
        apply filter_In. split; [assumption | now apply mem_In]. }
    apply Hval.
    + intros u Hux.
      change (override env removed ks u < cardinality x u).
      rewrite <- (Hcx u Hux). apply Hu. apply Hin. now left.
    + intros u Huy.
      change (override env removed ks u < cardinality y u).
      rewrite <- (Hcy u Huy). apply Hu. apply Hin. now right.
Qed.

(** ** The sum of a marginalization and the symmetry of the product *)


(** C9.  Under the conditions of C1, and for a commutative multiplication
    of scalars, [factor_product x y] and [factor_product y x] both return
    a valid factor over the variables of [x] and [y] together; a joint
    assignment in range for [x] and [y] is in range for both results, and
    the two tensors hold the same value there, each read in its own
    variable order. *)
Theorem factor_product_symmetric (x y : factor) :
  (forall a b, mul a b = mul b a) ->
  valid_factor x -> valid_factor y ->
  (exists v, In v (f_variables x) /\ In v (f_variables y)) ->
  (forall v, In v (f_variables x) -> In v (f_variables y) ->
             cardinality x v = cardinality y v) ->
  exists rxy ryx,
    factor_product x y = Ok rxy
    /\ factor_product y x = Ok ryx
    /\ valid_factor rxy /\ valid_factor ryx
    /\ (forall v, In v (f_variables rxy)
                  <-> In v (f_variables x) \/ In v (f_variables y))
    /\ (forall v, In v (f_variables ryx)
                  <-> In v (f_variables x) \/ In v (f_variables y))
    /\ forall env, assignment x env -> assignment y env ->
         assignment rxy env /\ assignment ryx env
         /\ value rxy env = mul (value x env) (value y env)
         /\ value rxy env = value ryx env.
Proof.
  intros Hcomm Hx Hy Hex Hcard.
  assert (Hex' : exists v, In v (f_variables y) /\ In v (f_variables x))
    by (destruct Hex as [v [H1 H2]]; exists v; now split).
  assert (Hcard' : forall v, In v (f_variables y) -> In v (f_variables x) ->
                             cardinality y v = cardinality x v)
    by (intros v H1 H2; symmetry; now apply Hcard).
  destruct (factor_product_layout x y Hx Hy (shared_nonempty _ _ Hex) Hcard)
    as (d1 & Hp1 & _).
  destruct (factor_product_layout y x Hy Hx (shared_nonempty _ _ Hex') Hcard')
    as (d2 & Hp2 & _).
  destruct (factor_product_ok x y _ Hx Hy Hp1) as (Hv1 & Hin1 & _ & _ & Hval1).
  destruct (factor_product_ok y x _ Hy Hx Hp2) as (Hv2 & Hin2 & _ & _ & Hval2).
  eexists. eexists. split; [exact Hp1|]. split; [exact Hp2|].
  split; [exact Hv1|]. split; [exact Hv2|]. split; [exact Hin1|]. split.
  - intros v. rewrite Hin2. split; intros [H|H]; [now right | now left
                                                  | now right | now left].
  - intros env Hex1 Hex2.
    destruct (Hval1 env Hex1 Hex2) as [Ha1 He1].
    destruct (Hval2 env Hex2 Hex1) as [Ha2 He2].
    split; [exact Ha1|]. split; [exact Ha2|]. split; [exact He1|].
    rewrite He1, He2. apply Hcomm.
Qed.

End Properties.

(** * The notebook's example, evaluated *)

Example product_example :
  factor_product Z 0%Z Z.mul phi_1 phi_2 = Ok phi_3.
Proof. reflexivity. Qed.

Example product_swapped_example :
  factor_product Z 0%Z Z.mul phi_2 phi_1
  = Ok (mk_factor Z ["c"; "b"; "a"]%string
          (Some (mk_ndarray Z [2; 2; 3]
                   [2500; 500; 1500; 800; 0; 900;
                    3500; 700; 2100; 1600; 0; 1800]%Z))
          (Some [2; 2; 3])).
Proof. reflexivity. Qed.

Example marginalization_example :
  factor_marginalization Z 0%Z Z.add phi_3 ["b"]%string
  = Ok (mk_factor Z ["a"; "c"]%string
          (Some (mk_ndarray Z [3; 2]
                   [3300; 5100; 500; 700; 2400; 3900]%Z))
          (Some [3; 2])).
Proof. reflexivity. Qed.

Example marginalization_all_example :
  factor_marginalization Z 0%Z Z.add phi_3 ["c"; "a"; "b"]%string
  = Ok (mk_factor Z [] (Some (mk_ndarray Z [] [15900]%Z)) (Some [])).
Proof. reflexivity. Qed.

Example reduction_example :
  factor_reduction Z 0%Z phi_3 (Some "c"%string) (Some 0%Z)
  = Ok (mk_factor Z ["a"; "b"]%string
          (Some (mk_ndarray Z [3; 2] [2500; 800; 500; 0; 1500; 900]%Z))
          (Some [3; 2])).
Proof. reflexivity. Qed.

Example reduction_from_the_end_example :
  factor_reduction Z 0%Z phi_3 (Some "c"%string) (Some (-1)%Z)
  = factor_reduction Z 0%Z phi_3 (Some "c"%string) (Some 1%Z).
Proof. reflexivity. Qed.

Example reduction_out_of_range_example :
  factor_reduction Z 0%Z phi_3 (Some "c"%string) (Some 2%Z)
  = Raise (Exception "Incorrect value of given variable")
  /\ factor_reduction Z 0%Z phi_3 (Some "c"%string) (Some (-3)%Z)
     = Raise IndexError.
Proof. split; reflexivity. Qed.

Example reduction_below_the_index_range_example :
  factor_reduction Z 0%Z phi_3 (Some "c"%string) (Some (- 2 ^ 63 - 1)%Z)
  = Raise OverflowError.
Proof. reflexivity. Qed.

Example product_disjoint_example :
  factor_product Z 0%Z Z.mul phi_1 phi_disjoint
  = Raise (Exception "Factors do not have common variables").
Proof. reflexivity. Qed.

Example product_cardinality_example :
  factor_product Z 0%Z Z.mul phi_1 phi_wide
  = Raise (Exception "Common variables have different order").
Proof. reflexivity. Qed.

Example joint_example :
  joint_distribution Z 0%Z Z.mul [phi_1; phi_2] = Ok phi_3
  /\ joint_distribution Z 0%Z Z.mul [phi_1] = Ok phi_1
  /\ joint_distribution Z 0%Z Z.mul [phi_1; phi_disjoint; phi_2]
     = Raise (Exception "Factors do not have common variables")
  /\ joint_distribution Z 0%Z Z.mul [phi_1; phi_none]
     = Raise (Exception "Factor is None").
Proof. repeat split; reflexivity. Qed.

(** * The properties on the example *)

Lemma phi_1_valid : valid_factor Z phi_1.
Proof.
  apply (valid_factor_intro Z ["a"; "b"]%string
           (mk_ndarray Z [3; 2] [50; 80; 10; 0; 30; 90]%Z)); reflexivity.
Defined.

Lemma phi_2_valid : valid_factor Z phi_2.
Proof.
  apply (valid_factor_intro Z ["b"; "c"]%string
           (mk_ndarray Z [2; 2] [50; 70; 10; 20]%Z)); reflexivity.
Defined.

Lemma phi_3_valid : valid_factor Z phi_3.
Proof.
  apply (valid_factor_intro Z ["a"; "b"; "c"]%string
           (mk_ndarray Z [3; 2; 2]
              [2500; 3500; 800; 1600; 500; 700; 0; 0;
               1500; 2100; 900; 1800]%Z)); reflexivity.
Defined.

Lemma phi_1_phi_2_share :
  exists v, In v (f_variables Z phi_1) /\ In v (f_variables Z phi_2).
Proof. exists "b"%string. simpl. tauto. Defined.

Lemma phi_1_phi_2_agree :
  forall v, In v (f_variables Z phi_1) -> In v (f_variables Z phi_2) ->
            cardinality Z phi_1 v = cardinality Z phi_2 v.
Proof.
  intros v [<-|[<-|[]]] Hy.
  - simpl in Hy. destruct Hy as [Hy|[Hy|[]]]; discriminate Hy.
  - reflexivity.
Defined.

Lemma factor_product_value_decomposition_witness :
  exists r,
    factor_product Z 0%Z Z.mul phi_1 phi_2 = Ok r
    /\ forall env, assignment Z phi_1 env -> assignment Z phi_2 env ->
         value Z 0%Z r env
         = (value Z 0%Z phi_1 env * value Z 0%Z phi_2 env)%Z.
Proof.
  exact (factor_product_value_decomposition Z 0%Z Z.mul phi_1 phi_2
           phi_1_valid phi_2_valid phi_1_phi_2_share phi_1_phi_2_agree).
Defined.

Lemma factor_product_variables_witness :
  exists r shared,
    factor_product Z 0%Z Z.mul phi_1 phi_2 = Ok r
    /\ f_variables Z r
       = filter (fun v => negb (mem v (f_variables Z phi_2)))
                (f_variables Z phi_1)
         ++ shared
         ++ filter (fun v => negb (mem v (f_variables Z phi_1)))
                   (f_variables Z phi_2)
    /\ StronglySorted str_lt shared
    /\ forall v, In v shared
                 <-> In v (f_variables Z phi_1) /\ In v (f_variables Z phi_2).
Proof.
  exact (factor_product_variables Z 0%Z Z.mul phi_1 phi_2
           phi_1_valid phi_2_valid phi_1_phi_2_share phi_1_phi_2_agree).
Defined.

Lemma factor_reduction_is_slice_witness :
  exists r,
    factor_reduction Z 0%Z phi_3 (Some "c"%string) (Some 0%Z) = Ok r
    /\ f_variables Z r
       = filter (fun w => negb (String.eqb "c" w)) (f_variables Z phi_3)
    /\ shape Z (tensor Z r) = map (cardinality Z phi_3) (f_variables Z r)
    /\ forall env,
        (forall w, In w (f_variables Z r) -> env w < cardinality Z phi_3 w) ->
        value Z 0%Z r env
        = value Z 0%Z phi_3 (updated env "c"%string (Z.to_nat 0)).
Proof.
  apply (factor_reduction_is_slice Z 0%Z phi_3 "c"%string 0%Z).
  - exact phi_3_valid.
  - simpl. tauto.
  - vm_compute. split; [discriminate | reflexivity].
Defined.

Lemma factor_reduction_negative_index_witness :
  exists r,
    factor_reduction Z 0%Z phi_3 (Some "c"%string) (Some (-1)%Z) = Ok r
    /\ f_variables Z r
       = filter (fun w => negb (String.eqb "c" w)) (f_variables Z phi_3)
    /\ shape Z (tensor Z r) = map (cardinality Z phi_3) (f_variables Z r)
    /\ forall env,
        (forall w, In w (f_variables Z r) -> env w < cardinality Z phi_3 w) ->
        value Z 0%Z r env
        = value Z 0%Z phi_3
                (updated env "c"%string
                   (Z.to_nat (Z.of_nat (cardinality Z phi_3 "c"%string)
                              + -1))).
Proof.
  apply (factor_reduction_negative_index Z 0%Z phi_3 "c"%string (-1)%Z).
  - exact phi_3_valid.
  - simpl. tauto.
  - vm_compute. split; [discriminate | reflexivity].
Defined.

Lemma phi_none_empty : empty_factor Z phi_none.
Proof. exists ["a"]%string. reflexivity. Defined.

Lemma empty_factor_rejected_witness :
  (forall y, InvalidArgument (factor_product Z 0%Z Z.mul phi_none y)
             /\ InvalidArgument (factor_product Z 0%Z Z.mul y phi_none))
  /\ (forall variables,
         InvalidArgument (factor_marginalization Z 0%Z Z.add phi_none variables))
  /\ (forall variable value,
         InvalidArgument (factor_reduction Z 0%Z phi_none variable value))
  /\ (forall ar, In phi_none ar ->
                 InvalidArgument (joint_distribution Z 0%Z Z.mul ar)).
Proof.
  exact (empty_factor_rejected Z 0%Z Z.add Z.mul phi_none phi_none_empty).
Defined.

Lemma factor_product_failures_witness :
  ((forall v, In v (f_variables Z phi_1) -> ~ In v (f_variables Z phi_2)) ->
   InvalidArgument (factor_product Z 0%Z Z.mul phi_1 phi_2))
  /\ ((exists v, In v (f_variables Z phi_1) /\ In v (f_variables Z phi_2)
                 /\ cardinality Z phi_1 v <> cardinality Z phi_2 v) ->
      InvalidArgument (factor_product Z 0%Z Z.mul phi_1 phi_2))
  /\ ((exists v, In v (f_variables Z phi_1) /\ In v (f_variables Z phi_2)) ->
      (forall v, In v (f_variables Z phi_1) -> In v (f_variables Z phi_2) ->
                 cardinality Z phi_1 v = cardinality Z phi_2 v) ->
      exists r, factor_product Z 0%Z Z.mul phi_1 phi_2 = Ok r).
Proof.
  exact (factor_product_failures Z 0%Z Z.mul phi_1 phi_2
           phi_1_valid phi_2_valid).
Defined.

Lemma joint_distribution_left_fold_witness :
  joint_distribution Z 0%Z Z.mul [phi_1; phi_2]
  = left_fold_product Z 0%Z Z.mul phi_1 [phi_2]
  /\ ([phi_2] = [] -> joint_distribution Z 0%Z Z.mul [phi_1; phi_2] = Ok phi_1)
  /\ (forall pre f post acc e,
         [phi_2] = pre ++ f :: post ->
         left_fold_product Z 0%Z Z.mul phi_1 pre = Ok acc ->
         factor_product Z 0%Z Z.mul acc f = Raise e ->
         joint_distribution Z 0%Z Z.mul [phi_1; phi_2] = Raise e).
Proof.
  apply (joint_distribution_left_fold Z 0%Z Z.mul phi_1 [phi_2]).
  repeat constructor.
Defined.

(** C8, as the specification words it, does not hold: the exception raised
    on the empty sequence is not one of the notebook's own. *)
Lemma joint_distribution_empty_not_InvalidArgument :
  ~ InvalidArgument (joint_distribution Z 0%Z Z.mul []).
Proof. intros [msg H]. discriminate H. Qed.

(** * The further properties on the example *)

Lemma phi_disjoint_valid : valid_factor Z phi_disjoint.
Proof.
  apply (valid_factor_intro Z ["c"; "d"]%string
           (mk_ndarray Z [2; 2] [1; 2; 3; 4]%Z)); reflexivity.
Defined.

Lemma phi_ba_valid : valid_factor Z phi_ba.
Proof.
  apply (valid_factor_intro Z ["b"; "a"]%string
           (mk_ndarray Z [2; 3] [1; 2; 3; 4; 5; 6]%Z)); reflexivity.
Defined.

Lemma factor_product_closed_witness :
  valid_factor Z phi_3
  /\ forall v, In v (f_variables Z phi_3)
               <-> In v (f_variables Z phi_1) \/ In v (f_variables Z phi_2).
Proof.
  apply (factor_product_closed Z 0%Z Z.mul phi_1 phi_2 phi_3
           phi_1_valid phi_2_valid).
  reflexivity.
Defined.

Lemma factor_product_cardinality_witness :
  (forall v, In v (f_variables Z phi_1) ->
             cardinality Z phi_3 v = cardinality Z phi_1 v)
  /\ (forall v, In v (f_variables Z phi_2) ->
                cardinality Z phi_3 v = cardinality Z phi_2 v)
  /\ forall env, assignment Z phi_1 env -> assignment Z phi_2 env ->
                 assignment Z phi_3 env.
Proof.
  apply (factor_product_cardinality Z 0%Z Z.mul phi_1 phi_2 phi_3
           phi_1_valid phi_2_valid).
  reflexivity.
Defined.

Lemma factor_product_self_witness :
  exists r,
    factor_product Z 0%Z Z.mul phi_ba phi_ba = Ok r
    /\ StronglySorted str_lt (f_variables Z r)
    /\ (forall v, In v (f_variables Z r) <-> In v (f_variables Z phi_ba))
    /\ forall env, assignment Z phi_ba env ->
         value Z 0%Z r env
         = (value Z 0%Z phi_ba env * value Z 0%Z phi_ba env)%Z.
Proof.
  apply (factor_product_self Z 0%Z Z.mul phi_ba phi_ba_valid).
  discriminate.
Defined.

Lemma factor_marginalization_unknown_witness :
  factor_marginalization Z 0%Z Z.add phi_3 ["b"; "z"]%string
  = Raise (Exception "Factor do not contain given variables").
Proof.
  apply (factor_marginalization_unknown Z 0%Z Z.add phi_3
           ["b"; "z"]%string "z"%string).
  - reflexivity.
  - simpl. tauto.
  - simpl. intros [H|[H|[H|[]]]]; discriminate H.
Defined.

Lemma factor_marginalization_closed_witness :
  incl ["b"]%string (f_variables Z phi_3)
  /\ valid_factor Z
       (the_factor (factor_marginalization Z 0%Z Z.add phi_3 ["b"]%string))
  /\ (forall v,
         In v (f_variables Z
                 (the_factor
                    (factor_marginalization Z 0%Z Z.add phi_3 ["b"]%string)))
         <-> In v (f_variables Z phi_3) /\ ~ In v ["b"]%string)
  /\ forall v,
      In v (f_variables Z
              (the_factor
                 (factor_marginalization Z 0%Z Z.add phi_3 ["b"]%string))) ->
      cardinality Z
        (the_factor (factor_marginalization Z 0%Z Z.add phi_3 ["b"]%string)) v
      = cardinality Z phi_3 v.
Proof.
  apply (factor_marginalization_closed Z 0%Z Z.add phi_3 _ ["b"]%string
           phi_3_valid).
  reflexivity.
Defined.

Lemma factor_reduction_rejects_witness :
  (forall value, factor_reduction Z 0%Z phi_3 None value
                 = Raise (Exception "Input is None"))
  /\ (forall variable, factor_reduction Z 0%Z phi_3 variable None
                       = Raise (Exception "Input is None"))
  /\ (forall v i, ~ In v (f_variables Z phi_3) ->
                  factor_reduction Z 0%Z phi_3 (Some v) (Some i)
                  = Raise (Exception "Factor do not contain given variable"))
  /\ (forall v i, In v (f_variables Z phi_3) ->
                  (Z.of_nat (cardinality Z phi_3 v) <= i)%Z ->
                  factor_reduction Z 0%Z phi_3 (Some v) (Some i)
                  = Raise (Exception "Incorrect value of given variable")).
Proof. exact (factor_reduction_rejects Z 0%Z phi_3 phi_3_valid). Defined.

Lemma factor_reduction_closed_witness :
  In "c"%string (f_variables Z phi_3)
  /\ (- Z.of_nat (cardinality Z phi_3 "c"%string) <= 0
      < Z.of_nat (cardinality Z phi_3 "c"%string))%Z
  /\ valid_factor Z
       (the_factor (factor_reduction Z 0%Z phi_3 (Some "c"%string) (Some 0%Z)))
  /\ (forall w,
         In w (f_variables Z
                 (the_factor
                    (factor_reduction Z 0%Z phi_3 (Some "c"%string)
                                      (Some 0%Z))))
         <-> In w (f_variables Z phi_3) /\ w <> "c"%string)
  /\ forall w,
      In w (f_variables Z
              (the_factor
                 (factor_reduction Z 0%Z phi_3 (Some "c"%string)
                                   (Some 0%Z)))) ->
      cardinality Z
        (the_factor
           (factor_reduction Z 0%Z phi_3 (Some "c"%string) (Some 0%Z))) w
      = cardinality Z phi_3 w.
Proof.
  apply (factor_reduction_closed Z 0%Z phi_3 _ "c"%string 0%Z phi_3_valid).
  reflexivity.
Defined.

Lemma joint_distribution_value_witness :
  valid_factor Z phi_3
  /\ (forall v, In v (f_variables Z phi_3)
                <-> exists f, In f [phi_1; phi_2] /\ In v (f_variables Z f))
  /\ forall env,
      Forall (fun f => assignment Z f env) [phi_1; phi_2] ->
      value Z 0%Z phi_3 env
      = fold_left (fun a f => (a * value Z 0%Z f env)%Z) [phi_2]
                  (value Z 0%Z phi_1 env).
Proof.
  apply (joint_distribution_value Z 0%Z Z.mul phi_1 phi_3 [phi_2]).
  - repeat constructor; [exact phi_1_valid | exact phi_2_valid].
  - reflexivity.
Defined.

Lemma factor_product_associative_witness :
  (forall v,
      In v (f_variables Z
              (the_factor (factor_product Z 0%Z Z.mul phi_3 phi_disjoint)))
      <-> In v (f_variables Z
                  (the_factor
                     (factor_product Z 0%Z Z.mul phi_1
                        (the_factor
                           (factor_product Z 0%Z Z.mul phi_2 phi_disjoint))))))
  /\ forall env,
      assignment Z phi_1 env -> assignment Z phi_2 env ->
      assignment Z phi_disjoint env ->
      value Z 0%Z
            (the_factor (factor_product Z 0%Z Z.mul phi_3 phi_disjoint)) env
      = value Z 0%Z
              (the_factor
                 (factor_product Z 0%Z Z.mul phi_1
                    (the_factor
                       (factor_product Z 0%Z Z.mul phi_2 phi_disjoint)))) env.
Proof.
  apply (factor_product_associative Z 0%Z Z.mul
           phi_1 phi_2 phi_disjoint phi_3
           (the_factor (factor_product Z 0%Z Z.mul phi_2 phi_disjoint))).
  - intros p q s. symmetry. apply Z.mul_assoc.
  - exact phi_1_valid.
  - exact phi_2_valid.
  - exact phi_disjoint_valid.
  - reflexivity.
  - reflexivity.
  - reflexivity.
  - reflexivity.
Defined.

Lemma factor_reduction_commute_witness :
  exists rv rw r1 r2,
    factor_reduction Z 0%Z phi_3 (Some "a"%string) (Some 1%Z) = Ok rv
    /\ factor_reduction Z 0%Z rv (Some "c"%string) (Some 0%Z) = Ok r1
    /\ factor_reduction Z 0%Z phi_3 (Some "c"%string) (Some 0%Z) = Ok rw
    /\ factor_reduction Z 0%Z rw (Some "a"%string) (Some 1%Z) = Ok r2
    /\ f_variables Z r1 = f_variables Z r2
    /\ forall env,
        (forall u, In u (f_variables Z r1) -> env u < cardinality Z phi_3 u) ->
        value Z 0%Z r1 env = value Z 0%Z r2 env.
Proof.
  apply (factor_reduction_commute Z 0%Z phi_3 "a"%string "c"%string 1%Z 0%Z
           phi_3_valid).
  - simpl. tauto.
  - simpl. tauto.
  - discriminate.
  - vm_compute. split; [discriminate | reflexivity].
  - vm_compute. split; [discriminate | reflexivity].
Defined.

Lemma factor_reduction_of_product_witness :
  exists r',
    factor_reduction Z 0%Z phi_3 (Some "b"%string) (Some 1%Z) = Ok r'
    /\ forall env,
        (forall u, In u (f_variables Z r') -> env u < cardinality Z phi_3 u) ->
        value Z 0%Z r' env
        = (value Z 0%Z phi_1 (updated env "b"%string (Z.to_nat 1))
           * value Z 0%Z phi_2 (updated env "b"%string (Z.to_nat 1)))%Z.
Proof.
  apply (factor_reduction_of_product Z 0%Z Z.mul phi_1 phi_2 phi_3
           "b"%string 1%Z phi_1_valid phi_2_valid).
  - reflexivity.
  - simpl. tauto.
  - vm_compute. split; [discriminate | reflexivity].
Defined.

(** * The properties about sums and ranges on the example *)

Lemma Z_addition_laws : addition_laws Z 0%Z Z.add.
Proof.
  split; [exact Z.add_assoc | split; [exact Z.add_comm | exact Z.add_0_r]].
Defined.


Lemma factor_product_symmetric_witness :
  exists rxy ryx,
    factor_product Z 0%Z Z.mul phi_1 phi_2 = Ok rxy
    /\ factor_product Z 0%Z Z.mul phi_2 phi_1 = Ok ryx
    /\ valid_factor Z rxy /\ valid_factor Z ryx
    /\ (forall v, In v (f_variables Z rxy)
                  <-> In v (f_variables Z phi_1) \/ In v (f_variables Z phi_2))
    /\ (forall v, In v (f_variables Z ryx)
                  <-> In v (f_variables Z phi_1) \/ In v (f_variables Z phi_2))
    /\ forall env, assignment Z phi_1 env -> assignment Z phi_2 env ->
         assignment Z rxy env /\ assignment Z ryx env
         /\ value Z 0%Z rxy env
            = (value Z 0%Z phi_1 env * value Z 0%Z phi_2 env)%Z
         /\ value Z 0%Z rxy env = value Z 0%Z ryx env.
Proof.
  exact (factor_product_symmetric Z 0%Z Z.mul phi_1 phi_2 Z.mul_comm
           phi_1_valid phi_2_valid phi_1_phi_2_share phi_1_phi_2_agree).
Defined.

Lemma factor_marginalization_all_witness :
  exists r,
    factor_marginalization Z 0%Z Z.add phi_3 ["c"; "a"; "b"]%string = Ok r
    /\ valid_factor Z r
    /\ f_variables Z r = []
    /\ shape Z (tensor Z r) = []
    /\ forall env,
        value Z 0%Z r env
        = sum_list Z 0%Z Z.add
            (map (get Z 0%Z (tensor Z phi_3))
                 (indices (shape Z (tensor Z phi_3))))
        /\ forall s,
            sum_of Z 0%Z Z.add
              (map (get Z 0%Z (tensor Z phi_3))
                   (indices (shape Z (tensor Z phi_3)))) s ->
            s = value Z 0%Z r env.
Proof.
  apply (factor_marginalization_all Z 0%Z Z.add phi_3
           ["c"; "a"; "b"]%string Z_addition_laws phi_3_valid).
  - intros v Hv. simpl in *. tauto.
  - intros v Hv. simpl in *. tauto.
Defined.

Lemma factor_reduction_below_range_witness :
  ((- 2 ^ 63 <= -3)%Z ->
   factor_reduction Z 0%Z phi_3 (Some "c"%string) (Some (-3)%Z)
   = Raise IndexError)
  /\ ((-3 < - 2 ^ 63)%Z ->
      factor_reduction Z 0%Z phi_3 (Some "c"%string) (Some (-3)%Z)
      = Raise OverflowError)
  /\ ~ InvalidArgument
        (factor_reduction Z 0%Z phi_3 (Some "c"%string) (Some (-3)%Z)).
Proof.
  apply (factor_reduction_below_range Z 0%Z phi_3 "c"%string (-3)%Z
           phi_3_valid).
  - simpl. tauto.
  - vm_compute. reflexivity.
Defined.

Lemma factor_reduction_marginalization_commute_witness :
  exists m rm rx mr,
    factor_marginalization Z 0%Z Z.add phi_3 ["b"]%string = Ok m
    /\ factor_reduction Z 0%Z m (Some "c"%string) (Some 1%Z) = Ok rm
    /\ factor_reduction Z 0%Z phi_3 (Some "c"%string) (Some 1%Z) = Ok rx
    /\ factor_marginalization Z 0%Z Z.add rx ["b"]%string = Ok mr
    /\ f_variables Z rm = f_variables Z mr
    /\ forall env,
        (forall u, In u (f_variables Z rm) -> env u < cardinality Z phi_3 u) ->
        value Z 0%Z rm env = value Z 0%Z mr env
        /\ forall s,
            sum_of Z 0%Z Z.add
              (map (fun ks =>
                      value Z 0%Z phi_3
                            (override (updated env "c"%string (Z.to_nat 1))
                               (filter (fun v => mem v ["b"]%string)
                                       (f_variables Z phi_3)) ks))
                   (indices (map (cardinality Z phi_3)
                                 (filter (fun v => mem v ["b"]%string)
                                         (f_variables Z phi_3))))) s ->
            s = value Z 0%Z rm env.
Proof.
  apply (factor_reduction_marginalization_commute Z 0%Z Z.add phi_3
           ["b"]%string "c"%string 1%Z Z_addition_laws phi_3_valid).
  - intros v [<-|[]]. simpl. tauto.
  - simpl. tauto.
  - simpl. intros [H|[]]. discriminate H.
  - vm_compute. split; [discriminate | reflexivity].
Defined.

Lemma factor_marginalization_of_product_witness :
  exists m,
    factor_marginalization Z 0%Z Z.add phi_3 ["b"]%string = Ok m
    /\ valid_factor Z m
    /\ (forall v, In v (f_variables Z m)
                  <-> (In v (f_variables Z phi_1) \/ In v (f_variables Z phi_2))
                      /\ ~ In v ["b"]%string)
    /\ forall env,
        (forall u, In u (f_variables Z m) -> env u < cardinality Z phi_3 u) ->
        value Z 0%Z m env
        = sum_list Z 0%Z Z.add
            (map (fun ks =>
                    (value Z 0%Z phi_1
                           (override env
                              (filter (fun v => mem v ["b"]%string)
                                      (f_variables Z phi_3)) ks)
                     * value Z 0%Z phi_2
                             (override env
                                (filter (fun v => mem v ["b"]%string)
                                        (f_variables Z phi_3)) ks))%Z)
                 (indices (map (cardinality Z phi_3)
                               (filter (fun v => mem v ["b"]%string)
                                       (f_variables Z phi_3)))))
        /\ forall s,
            sum_of Z 0%Z Z.add
              (map (fun ks =>
                      (value Z 0%Z phi_1
                             (override env
                                (filter (fun v => mem v ["b"]%string)
                                        (f_variables Z phi_3)) ks)
                       * value Z 0%Z phi_2
                               (override env
                                  (filter (fun v => mem v ["b"]%string)
                                          (f_variables Z phi_3)) ks))%Z)
                   (indices (map (cardinality Z phi_3)
                                 (filter (fun v => mem v ["b"]%string)
                                         (f_variables Z phi_3))))) s ->
            s = value Z 0%Z m env.
Proof.
  apply (factor_marginalization_of_product Z 0%Z Z.add Z.mul
           phi_1 phi_2 phi_3 ["b"]%string Z_addition_laws
           phi_1_valid phi_2_valid).
  - reflexivity.
  - intros v [<-|[]]. simpl. tauto.
Defined.

